(** * throttle-agent: the adaptive admission controller of the HTTP agent

    A shallow embedding of the throttling mixin [BaseThrottleAgent]
    (the agent source, lines 33-322) and the properties of its admission
    check, feedback loop, limiter registry and cleanup sweep.

    Modelling conventions.
    - JavaScript numbers that the agent uses as integers (rates, limits,
      clock readings, buffer sizes) are [Z]; counters that only ever count
      up from zero are [N].  Integers are exact in a double below 2^53.
    - The two places where the source computes with fractions,
      [Math.floor(limit * koef)] and [bufferSize / bufferCount > maxBuffer],
      are evaluated in IEEE binary64 with the operations of [SpecFloat].
    - A JavaScript object that is mutated in place is a record that the
      function takes and returns; the registry [this.rateLimiters] is a
      [gmap] from key to limiter, and a function that mutates a limiter of
      the registry stores the new record back under its key.
    - All the [Date.now()] readings of one synchronous call are the same
      instant, the argument [now].
    - Calls that leave the agent (on the request, on the timer, on the
      underlying [http.Agent]) are recorded in a list of [Effect]s. *)

From Stdlib Require Import ZArith NArith Bool SpecFloat.
From stdpp Require Import base option list strings gmap fin_maps.

Local Open Scope Z_scope.

(** ** Constants (source lines 7-16) *)

Definition MAX_RATE : Z := 1000000.
Definition MIN_RATE : Z := 1.
Definition RATE_INTERVAL : Z := 1000.
Definition RATE_LOWER_WEIGHT : Z := 18.
Definition MAX_PENDING : Z := 3000.
Definition MAX_BUFFER : Z := 50.
Definition AVG_TIME : Z := 400.
Definition CLEANUP_TIME : Z := 60000.

(** ** JavaScript numbers *)

Module JS.

(** binary64 *)
Definition prec : Z := 53.
Definition emax : Z := 1024.

(** The double of an integer. *)
Definition ofZ (z : Z) : spec_float := binary_normalize prec emax z 0 false.

(** A finite non-zero double, [(-1)^kneg * kmant * 2^kexp]: what a
    koefficient option of the agent holds once the constructor has
    replaced the falsy values. *)
Record Koef := mkKoef {
  kneg : bool;
  kmant : positive;
  kexp : Z;
  kvalid : bounded prec emax kmant kexp = true
}.

Definition ofKoef (k : Koef) : spec_float := S754_finite (kneg k) (kmant k) (kexp k).

(** The value of an arithmetic expression over integers and one finite
    double: an integer, or an infinity when the double product overflowed. *)
Inductive num :=
| Int (z : Z)
| Inf (negative : bool).

(** [Math.floor] of a double.  A shift by a negative amount is the
    division by a power of two that rounds down. *)
Definition floor (x : spec_float) : num :=
  match x with
  | S754_zero _ => Int 0
  | S754_finite s m e => Int (Z.shiftl (cond_Zopp s (Zpos m)) e)
  | S754_infinity s => Inf s
  | S754_nan => Int 0 (* not reached by [floorMul]: [product_not_nan] *)
  end.

(** [Math.floor(limit * koef)] *)
Definition floorMul (limit : Z) (k : Koef) : num :=
  floor (SFmul prec emax (ofZ limit) (ofKoef k)).

(** [Math.max(x, 1)] *)
Definition max1 (x : num) : num :=
  match x with
  | Int z => Int (Z.max z 1)
  | Inf false => Inf false
  | Inf true => Int 1
  end.

(** [Math.sign(diff) * x] for [diff <> 0] *)
Definition signed (diff : Z) (x : num) : num :=
  match x with
  | Int z => Int (Z.sgn diff * z)
  | Inf s => Inf (if diff <? 0 then negb s else s)
  end.

(** [limit + x] *)
Definition plus (limit : Z) (x : num) : num :=
  match x with
  | Int z => Int (limit + z)
  | Inf s => Inf s
  end.

(** [a / b > c] over integers, as the doubles compute it *)
Definition quotGt (a b c : Z) : bool :=
  SFltb (ofZ c) (SFdiv prec emax (ofZ a) (ofZ b)).

(** [x || d] on an integer: zero is the falsy integer. *)
Definition orElse (x d : Z) : Z := if x =? 0 then d else x.

End JS.

(** 0.2 and 0.02 as the doubles nearest to them (source lines 11-12). *)
Definition RATE_LOWER_KOEF : JS.Koef := JS.mkKoef false 7205759403792794 (-55) eq_refl.
Definition RATE_RAISE_KOEF : JS.Koef := JS.mkKoef false 5764607523034235 (-58) eq_refl.

(** ** The limiter object *)

(** An instance of the class [RateLimiter] of the package
    [@druide/rate-limiter], with the fields the agent reads of it
    ([limit], [tokensThisInterval], [incomingThisInterval],
    [curIntervalStart], [averageTime]) and the fields the agent attaches to
    it in [_getLimiter] ([success], [failed], [lastRate], [lastRateTime],
    [name], [flag]). *)
Record RateLimiter := mkLimiter {
  limit : Z;
  interval : Z;
  tokensThisInterval : N;
  incomingThisInterval : N;
  curIntervalStart : Z;
  averageTime : Z;
  success : N;
  failed : N;
  lastRate : Z;
  lastRateTime : Z;
  name : string;
  flag : string
}.

Definition set_limit (v : Z) (l : RateLimiter) : RateLimiter :=
  mkLimiter v (interval l) (tokensThisInterval l) (incomingThisInterval l)
    (curIntervalStart l) (averageTime l) (success l) (failed l) (lastRate l)
    (lastRateTime l) (name l) (flag l).

Definition set_tokensThisInterval (v : N) (l : RateLimiter) : RateLimiter :=
  mkLimiter (limit l) (interval l) v (incomingThisInterval l)
    (curIntervalStart l) (averageTime l) (success l) (failed l) (lastRate l)
    (lastRateTime l) (name l) (flag l).

Definition set_incomingThisInterval (v : N) (l : RateLimiter) : RateLimiter :=
  mkLimiter (limit l) (interval l) (tokensThisInterval l) v
    (curIntervalStart l) (averageTime l) (success l) (failed l) (lastRate l)
    (lastRateTime l) (name l) (flag l).

Definition set_curIntervalStart (v : Z) (l : RateLimiter) : RateLimiter :=
  mkLimiter (limit l) (interval l) (tokensThisInterval l) (incomingThisInterval l)
    v (averageTime l) (success l) (failed l) (lastRate l)
    (lastRateTime l) (name l) (flag l).

Definition set_averageTime (v : Z) (l : RateLimiter) : RateLimiter :=
  mkLimiter (limit l) (interval l) (tokensThisInterval l) (incomingThisInterval l)
    (curIntervalStart l) v (success l) (failed l) (lastRate l)
    (lastRateTime l) (name l) (flag l).

Definition set_success (v : N) (l : RateLimiter) : RateLimiter :=
  mkLimiter (limit l) (interval l) (tokensThisInterval l) (incomingThisInterval l)
    (curIntervalStart l) (averageTime l) v (failed l) (lastRate l)
    (lastRateTime l) (name l) (flag l).

Definition set_failed (v : N) (l : RateLimiter) : RateLimiter :=
  mkLimiter (limit l) (interval l) (tokensThisInterval l) (incomingThisInterval l)
    (curIntervalStart l) (averageTime l) (success l) v (lastRate l)
    (lastRateTime l) (name l) (flag l).

Definition set_lastRate (v : Z) (l : RateLimiter) : RateLimiter :=
  mkLimiter (limit l) (interval l) (tokensThisInterval l) (incomingThisInterval l)
    (curIntervalStart l) (averageTime l) (success l) (failed l) v
    (lastRateTime l) (name l) (flag l).

Definition set_lastRateTime (v : Z) (l : RateLimiter) : RateLimiter :=
  mkLimiter (limit l) (interval l) (tokensThisInterval l) (incomingThisInterval l)
    (curIntervalStart l) (averageTime l) (success l) (failed l) (lastRate l)
    v (name l) (flag l).

Definition set_name (v : string) (l : RateLimiter) : RateLimiter :=
  mkLimiter (limit l) (interval l) (tokensThisInterval l) (incomingThisInterval l)
    (curIntervalStart l) (averageTime l) (success l) (failed l) (lastRate l)
    (lastRateTime l) v (flag l).

Definition set_flag (v : string) (l : RateLimiter) : RateLimiter :=
  mkLimiter (limit l) (interval l) (tokensThisInterval l) (incomingThisInterval l)
    (curIntervalStart l) (averageTime l) (success l) (failed l) (lastRate l)
    (lastRateTime l) (name l) v.

(** The methods of the limiter class.  The class belongs to another
    package; the agent is written against this interface. *)
Class LimiterClass := {
  (** [new RateLimiter(limit, interval)] at instant [now] *)
  newLimiter : Z -> Z -> Z -> RateLimiter;
  (** [limiter.accept(n)] at instant [now]: the verdict and the limiter after *)
  accept : Z -> N -> RateLimiter -> bool * RateLimiter;
  (** [limiter.setLimit(v)] *)
  setLimit : Z -> RateLimiter -> RateLimiter;
  (** [limiter.addTime(t)] *)
  addTime : Z -> RateLimiter -> RateLimiter
}.

(** The part of the limiter's contract that the agent's properties rely on:
    a limit within the bounds is installed as it is, and the tallies and the
    target that the agent attached are not the limiter's to change. *)
Class LimiterLaws (L : LimiterClass) : Prop := {
  setLimit_installs : forall v l,
    MIN_RATE <= v <= MAX_RATE -> limit (setLimit v l) = v;
  setLimit_agent_fields : forall v l,
    success (setLimit v l) = success l /\ failed (setLimit v l) = failed l /\
    lastRate (setLimit v l) = lastRate l /\ lastRateTime (setLimit v l) = lastRateTime l
}.

(** Modelled from the spec: the token-bucket limiter of section 4.1, whose
    code (the package [@druide/rate-limiter]) is not part of the agent's
    source.  [accept(n)] rolls the interval over when it has elapsed, always
    counts the [n] incoming and admits iff [accepted + n <= limit];
    [setLimit] clamps to [MIN_RATE, MAX_RATE]; [addTime] is a fixed
    smoothing (here the mean of the old average and the sample); a new
    limiter starts with [limit = min(rate, MAX_RATE)] and zero counters. *)
Module SpecLimiter.

Definition rollover (now : Z) (l : RateLimiter) : RateLimiter :=
  if curIntervalStart l + interval l <=? now
  then set_curIntervalStart now
         (set_incomingThisInterval 0%N (set_tokensThisInterval 0%N l))
  else l.

Definition accept (now : Z) (n : N) (l : RateLimiter) : bool * RateLimiter :=
  let l1 := rollover now l in
  let l2 := set_incomingThisInterval (incomingThisInterval l1 + n)%N l1 in
  if Z.of_N (tokensThisInterval l2 + n) <=? limit l2
  then (true, set_tokensThisInterval (tokensThisInterval l2 + n)%N l2)
  else (false, l2).

Definition setLimit (v : Z) (l : RateLimiter) : RateLimiter :=
  set_limit (Z.max MIN_RATE (Z.min MAX_RATE v)) l.

Definition addTime (t : Z) (l : RateLimiter) : RateLimiter :=
  set_averageTime ((averageTime l + t) / 2) l.

Definition newLimiter (rate intv now : Z) : RateLimiter :=
  mkLimiter (Z.min rate MAX_RATE) intv 0 0 now 0 0 0 0 0 "" "".

End SpecLimiter.

Definition specLimiter : LimiterClass := {|
  newLimiter := SpecLimiter.newLimiter;
  accept := SpecLimiter.accept;
  setLimit := SpecLimiter.setLimit;
  addTime := SpecLimiter.addTime
|}.

(** ** The agent *)

(** [code] of [_changeRate]: a status code, an error code, or [undefined]. *)
Inductive Code :=
| CNum (n : Z)
| CStr (s : string)
| CUndef.

Record Socket := mkSocket { bufferSize : Z }.

(** A subscriber of a request event: a function of the caller, with the
    number of parameters it declares (its [length]; 0 for a function
    without parameters and for the wrapper that [once] subscribes), or one
    of the three closures that [addRequest] subscribes, which keep the
    [startTime] they captured; the limiter they captured is the one they
    are run on. *)
Inductive Listener :=
| UserListener (id : nat) (parameters : nat)
| OnResponse (startTime : Z)
| OnError (startTime : Z)
| OnAbort.

(** The [length] property of a subscriber: [(response) => ...] and
    [(err) => ...] declare one parameter, [() => ...] none. *)
Definition functionLength (f : Listener) : nat :=
  match f with
  | UserListener _ parameters => parameters
  | OnResponse _ => 1
  | OnError _ => 1
  | OnAbort => 0
  end.

(** The [length] property of an entry of [request._events].  The record
    below keeps for each event the subscribers in the order of their
    subscription; the event emitter of the runtime stores a single
    subscriber as the function itself and only two or more as an array, so
    the [length] that the source reads off an entry is the number of
    parameters of a lone subscriber and the number of subscribers
    otherwise. *)
Definition entryLength (fs : list Listener) : nat :=
  match fs with
  | [f] => functionLength f
  | _ => length fs
  end.

Record ClientRequest := mkRequest {
  _events : gmap string (list Listener);
  _agentTimeout : option Z;
  socket : option Socket
}.

Record Uri := mkUri { href : string }.
Record Info := mkInfo { uri : option Uri; timeout : option Z }.

(** The fields and the method of the base class [http.Agent] that the mixin
    reads: the tables of open sockets, free sockets and pending requests by
    endpoint name, [maxSockets] (a number, [Infinity] by default), and
    [getName]. *)
Record Transport := mkTransport {
  sockets : gmap string (list Socket);
  freeSockets : gmap string (list Socket);
  requests : gmap string (list ClientRequest);
  maxSockets : JS.num;
  getName : Info -> string
}.

(** The options of the agent after the constructor (source lines 72-93). *)
Record Config := mkConfig {
  rate : Z;
  rateInterval : Z;
  rateLowerWeight : Z;
  rateLowerKoef : JS.Koef;
  rateRaiseKoef : JS.Koef;
  getRate : string -> string -> Z;
  getFlag : string -> string;
  maxPending : Z;
  maxBuffer : Z;
  checkBeforeRequest : bool;
  getRateDirection : Code -> Transport -> RateLimiter -> Z
}.

Record Agent := mkAgent {
  cfg : Config;
  rateLimiters : gmap string RateLimiter;
  lastCleanupTime : Z
}.

Definition set_rateLimiters (m : gmap string RateLimiter) (a : Agent) : Agent :=
  mkAgent (cfg a) m (lastCleanupTime a).

Definition set_lastCleanupTime (t : Z) (a : Agent) : Agent :=
  mkAgent (cfg a) (rateLimiters a) t.

(** [x && p(x)] and [!x || p(x)] on a table entry that may be [undefined]
    (an array is truthy, also when it is empty). *)
Definition andThen {A} (o : option A) (p : A -> bool) : bool :=
  match o with Some x => p x | None => false end.

Definition absentOr {A} (o : option A) (p : A -> bool) : bool :=
  match o with Some x => p x | None => true end.

Definition len {A} (l : list A) : Z := Z.of_nat (length l).

(** The default [getRateDirection] (source lines 86-93). *)
Definition defaultRateDirection (code : Code) (T : Transport) (limiter : RateLimiter) : Z :=
  let socks := sockets T !! name limiter in
  if absentOr socks (fun s =>
       match maxSockets T with
       | JS.Int m => 0 <? m - len s
       | JS.Inf neg => negb neg
       end)
  then 1
  else
    let reqs := requests T !! name limiter in
    if andThen reqs (fun r => 1000 <? len r) then -1
    else
      match code with
      | CNum n => if (200 <=? n) && (n <? 400) then 1 else -1
      | _ => -1
      end.

(** The options object given to the constructor; [None] is an option that
    was left out. *)
Record Options := mkOptions {
  o_rate : option Z;
  o_rateInterval : option Z;
  o_rateLowerWeight : option Z;
  o_rateLowerKoef : option JS.Koef;
  o_rateRaiseKoef : option JS.Koef;
  o_getRate : option (string -> string -> Z);
  o_getFlag : option (string -> string);
  o_maxPending : option Z;
  o_maxBuffer : option Z;
  o_checkBeforeRequest : option bool;
  o_getRateDirection : option (Code -> Transport -> RateLimiter -> Z)
}.

Definition noOptions : Options :=
  mkOptions None None None None None None None None None None None.

(** [options.x || d] for a number option *)
Definition numOr (o : option Z) (d : Z) : Z :=
  match o with Some x => JS.orElse x d | None => d end.

(** The constructor (source lines 68-94) at instant [now]. *)
Definition constructor (options : Options) (now : Z) : Agent :=
  let r := numOr (o_rate options) MAX_RATE in
  mkAgent
    (mkConfig r
       (numOr (o_rateInterval options) RATE_INTERVAL)
       (numOr (o_rateLowerWeight options) RATE_LOWER_WEIGHT)
       (default RATE_LOWER_KOEF (o_rateLowerKoef options))
       (default RATE_RAISE_KOEF (o_rateRaiseKoef options))
       (default (fun _ _ => r) (o_getRate options))
       (default (fun _ => "") (o_getFlag options))
       (numOr (o_maxPending options) MAX_PENDING)
       (numOr (o_maxBuffer options) MAX_BUFFER)
       (default false (o_checkBeforeRequest options))
       (default defaultRateDirection (o_getRateDirection options)))
    ∅ now.

(** Calls that leave the agent, in the order in which they are made. *)
Inductive Effect :=
| Abort                               (* request.abort() *)
| EmitError (message : string) (code : Code)  (* request.emit('error', e) *)
| ClearTimeout                        (* clearTimeout(request._agentTimeout) *)
| SetTimeout (ms : Z)                 (* setTimeout(() => request.abort(), ms) *)
| DestroySocket                       (* request.socket.destroy() *)
| Feedback (code : Code)              (* this._changeRate(limiter, code) *)
| SuperAddRequest                     (* super.addRequest(request, info) *)
| SuperRemoveSocket.                  (* super.removeSocket(socket, request, cb) *)

(** The events of a request that the agent subscribes to. *)
Inductive RequestEvent :=
| Response (statusCode : Z)
| Error (code : Code)
| AbortEvent.

(** The result of [Url.parse] that [canAcceptRequest] reads; [None] is
    [null]. *)
Record UrlObject := mkUrl {
  protocol : option string;
  hostname : option string;
  port : option string
}.

Section Agent.

Context {L : LimiterClass}.

(** [_getLimiter] (source lines 260-278).  [flag || ''] is [flag] for a
    string. *)
Definition effectiveRate (c : Config) (name flag : string) : Z :=
  JS.orElse (getRate c name flag) MAX_RATE.

Definition createLimiter (c : Config) (now : Z) (name flag : string) : RateLimiter :=
  let rate := effectiveRate c name flag in
  set_flag flag (set_name name (set_lastRateTime now (set_lastRate rate
    (set_success 0 (set_failed 0 (newLimiter rate (rateInterval c) now)))))).

Definition retarget (rate : Z) (limiter : RateLimiter) : RateLimiter :=
  if decide (lastRate limiter ≠ rate)
  then setLimit (Z.min (limit limiter) rate) (set_lastRate rate limiter)
  else limiter.

Definition _getLimiter (a : Agent) (now : Z) (name flag : string)
  : Agent * RateLimiter :=
  let key := name +:+ flag in
  let rate := effectiveRate (cfg a) name flag in
  let limiter :=
    match rateLimiters a !! key with
    | Some l => l
    | None => createLimiter (cfg a) now name flag
    end in
  let limiter := retarget rate limiter in
  (set_rateLimiters (<[key := limiter]> (rateLimiters a)) a, limiter).

(** [_changeRate] (source lines 283-305), on the limiter it is given. *)
Definition tally (dir : Z) (limiter : RateLimiter) : RateLimiter :=
  if dir =? 1 then set_success (success limiter + 1)%N limiter
  else if dir =? -1 then set_failed (failed limiter + 1)%N limiter
  else limiter.

Definition tallyDiff (c : Config) (limiter : RateLimiter) : Z :=
  Z.of_N (success limiter) - Z.of_N (failed limiter) * rateLowerWeight c.

(** [if (limit > rate) limit = rate; if (limit < MIN_RATE) limit = MIN_RATE] *)
Definition clampLimit (rate : Z) (lim : JS.num) : Z :=
  match lim with
  | JS.Int z =>
      let z := if rate <? z then rate else z in
      if z <? MIN_RATE then MIN_RATE else z
  | JS.Inf false => if rate <? MIN_RATE then MIN_RATE else rate
  | JS.Inf true => MIN_RATE
  end.

Definition nextLimit (c : Config) (rate diff lim : Z) : Z :=
  let limitDiff :=
    JS.max1 (JS.floorMul lim (if diff <? 0 then rateLowerKoef c else rateRaiseKoef c)) in
  clampLimit rate (JS.plus lim (JS.signed diff limitDiff)).

Definition _changeRate (c : Config) (T : Transport) (now : Z)
    (limiter : RateLimiter) (code : Code) : RateLimiter :=
  let dir := getRateDirection c code T limiter in
  let limiter := tally dir limiter in
  if lastRateTime limiter + rateInterval c <=? now then
    let rate := effectiveRate c (name limiter) (flag limiter) in
    let limiter := set_lastRateTime now limiter in
    let diff := tallyDiff c limiter in
    let limiter :=
      if negb (diff =? 0)
      then setLimit (nextLimit c rate diff (limit limiter)) limiter
      else limiter in
    set_failed 0 (set_success 0 limiter)
  else limiter.

(** [_canAcceptRequest] (source lines 113-145). *)
Definition reject (withFailed : bool) (limiter : RateLimiter) : RateLimiter :=
  let limiter :=
    set_incomingThisInterval (incomingThisInterval limiter + 1)%N limiter in
  if withFailed then set_failed (failed limiter + 1)%N limiter else limiter.

Definition queueFull (c : Config) (T : Transport) (name : string) : bool :=
  andThen (requests T !! name) (fun r => maxPending c <=? len r).

(** The loop of lines 132-135: the sum of the buffer sizes and the number
    of sockets. *)
Definition bufferTotals (socks : list Socket) : Z * Z :=
  foldl (fun '(size, count) s => (size + bufferSize s, count + 1)) (0, 0) socks.

Definition bufferCap (c : Config) (limiter : RateLimiter) : Z :=
  if averageTime limiter <? AVG_TIME then maxBuffer c * 7 else maxBuffer c.

Definition bufferPressure (c : Config) (T : Transport) (name : string)
    (limiter : RateLimiter) : bool :=
  if negb (tokensThisInterval limiter =? 0)%N then
    andThen (sockets T !! name) (fun socks =>
      let '(size, count) := bufferTotals socks in
      negb (count =? 0) && JS.quotGt size count (bufferCap c limiter))
  else false.

Definition store (key : string) (limiter : RateLimiter) (a : Agent) : Agent :=
  set_rateLimiters (<[key := limiter]> (rateLimiters a)) a.

Definition _canAcceptRequest (a : Agent) (T : Transport) (now : Z)
    (name flag : string) (withFailed : bool) : Agent * bool :=
  let '(a, limiter) := _getLimiter a now name flag in
  let key := name +:+ flag in
  if queueFull (cfg a) T name then
    (store key (reject withFailed limiter) a, false)
  else if bufferPressure (cfg a) T name limiter then
    (store key (reject withFailed limiter) a, false)
  else
    let '(ok, limiter) := accept now 1%N limiter in
    (store key limiter a, ok).

(** [canAcceptRequest] (source lines 102-108); [parse] is [Url.parse].
    [hostname + ':'] prints a [null] hostname as [null], and
    [port || 80] takes 80 for a [null] or empty port. *)
Definition endpointName (u : UrlObject) : string :=
  default "null" (hostname u) +:+ ":" +:+
  match port u with
  | Some p => if decide (p = "") then "80" else p
  | None => "80"
  end +:+ ":".

Definition canAcceptRequest (parse : string -> UrlObject)
    (a : Agent) (T : Transport) (now : Z) (url : string) : Agent * bool :=
  if negb (checkBeforeRequest (cfg a)) then (a, true)
  else
    let _url := parse url in
    let name := endpointName _url in
    let flag := getFlag (cfg a) url in
    _canAcceptRequest a T now name flag true.

(** [_cleanup] (source lines 310-321): the keys of the registry are
    visited once each, and a visit reads the registry as the visits
    before it left it. *)
Definition isEmpty {A} (o : option (list A)) : bool :=
  absentOr o (fun l => len l =? 0).

Definition expired (T : Transport) (now : Z) (limiter : RateLimiter) : bool :=
  (curIntervalStart limiter + CLEANUP_TIME <? now) &&
  isEmpty (sockets T !! name limiter) &&
  isEmpty (freeSockets T !! name limiter) &&
  isEmpty (requests T !! name limiter).

Definition sweep (T : Transport) (now : Z)
    (m : gmap string RateLimiter) (key : string) : gmap string RateLimiter :=
  match m !! key with
  | Some limiter => if expired T now limiter then delete key m else m
  | None => m
  end.

Definition _cleanup (a : Agent) (T : Transport) (now : Z) : Agent :=
  let a := set_lastCleanupTime now a in
  let keys := (map_to_list (rateLimiters a)).*1 in
  set_rateLimiters (foldl (sweep T now) (rateLimiters a) keys) a.

(** [removeSocket] (source lines 220-223). *)
Definition removeSocket (a : Agent) (T : Transport) (now : Z)
  : Agent * list Effect :=
  let a := if lastCleanupTime a + CLEANUP_TIME <? now then _cleanup a T now else a in
  (a, [SuperRemoveSocket]).

(** [request.on(event, f)]: [f] is added after the subscribers there are. *)
Definition on (event : string) (f : Listener) (request : ClientRequest)
  : ClientRequest :=
  mkRequest
    (<[event := default [] (_events request !! event) ++ [f]]> (_events request))
    (_agentTimeout request) (socket request).

(** [clearAgentTimeout] (source lines 172-177). *)
Definition clearAgentTimeout (request : ClientRequest)
  : ClientRequest * list Effect :=
  match _agentTimeout request with
  | Some _ => (mkRequest (_events request) None (socket request), [ClearTimeout])
  | None => (request, [])
  end.

Definition hasListeners (o : option (list Listener)) : bool :=
  andThen o (fun l => negb (entryLength l =? 0)%nat).

(** [addRequest] (source lines 152-199) at instant [now]: the agent, the
    request and the calls made. *)
Definition addRequest (a : Agent) (T : Transport) (now : Z)
    (request : ClientRequest) (info : Info)
  : Agent * ClientRequest * list Effect :=
  let name := getName T info in
  let flag := getFlag (cfg a) (match uri info with Some u => href u | None => "" end) in
  let '(a, admitted) :=
    if negb (checkBeforeRequest (cfg a))
    then _canAcceptRequest a T now name flag false
    else (a, true) in
  if negb admitted then
    let errorListeners := _events request !! "error" in
    (a, request,
     Abort ::
     (if hasListeners errorListeners
      then [EmitError "429 Too Many Requests" (CNum 429)]
      else []))
  else
    let '(a, limiter) := _getLimiter a now name flag in
    let startTime := now in
    let request :=
      on "abort" OnAbort
        (on "error" (OnError startTime)
           (on "response" (OnResponse startTime) request)) in
    match timeout info with
    | Some ms =>
        if ms =? 0 then (a, request, [SuperAddRequest])
        else (a, mkRequest (_events request) (Some ms) (socket request),
              [SetTimeout ms; SuperAddRequest])
    | None => (a, request, [SuperAddRequest])
    end.

(** The three closures of lines 179-190, run at instant [now] on the
    limiter that [addRequest] captured.  A closure is subscribed under its
    own event only; a subscriber of the caller is not the agent's to run. *)
Definition runListener (c : Config) (T : Transport) (now : Z) (event : RequestEvent)
    (st : RateLimiter * ClientRequest * list Effect) (f : Listener)
  : RateLimiter * ClientRequest * list Effect :=
  let '(limiter, request, done) := st in
  match f, event with
  | OnResponse startTime, Response statusCode =>
      let '(request, eff) := clearAgentTimeout request in
      let limiter := addTime (now - startTime) limiter in
      (_changeRate c T now limiter (CNum statusCode), request,
       done ++ eff ++ [Feedback (CNum statusCode)])
  | OnError startTime, Error code =>
      let '(request, eff) := clearAgentTimeout request in
      let limiter := addTime (now - startTime) limiter in
      (_changeRate c T now limiter code, request,
       done ++ eff ++ [Feedback code])
  | OnAbort, AbortEvent =>
      let '(request, eff) := clearAgentTimeout request in
      (limiter, request,
       done ++ eff ++
       match socket request with Some _ => [DestroySocket] | None => [] end)
  | _, _ => st
  end.

Definition eventName (event : RequestEvent) : string :=
  match event with
  | Response _ => "response"
  | Error _ => "error"
  | AbortEvent => "abort"
  end.

(** [request.emit(event, ...)] at instant [now], as far as the agent's
    closures go. *)
Definition emit (c : Config) (T : Transport)
    (st : RateLimiter * ClientRequest * list Effect) (timed : Z * RequestEvent)
  : RateLimiter * ClientRequest * list Effect :=
  let '(now, event) := timed in
  let subscribers := default [] (_events st.1.2 !! eventName event) in
  foldl (runListener c T now event) st subscribers.

(** A life of a request: the events it emits, each with its instant. *)
Definition deliver (c : Config) (T : Transport) (limiter : RateLimiter)
    (request : ClientRequest) (events : list (Z * RequestEvent))
  : RateLimiter * ClientRequest * list Effect :=
  foldl (emit c T) (limiter, request, []) events.

End Agent.

(** The codes with which the feedback engine was called, in order. *)
Definition feedbackCodes (eff : list Effect) : list Code :=
  omap (fun e => match e with Feedback c => Some c | _ => None end) eff.

(** The code that an event carries for the feedback engine, if it does. *)
Definition eventCode (event : RequestEvent) : option Code :=
  match event with
  | Response statusCode => Some (CNum statusCode)
  | Error code => Some code
  | AbortEvent => None
  end.

Definition isUserListener (f : Listener) : Prop :=
  match f with UserListener _ _ => True | _ => False end.

(** A request as the caller hands it over: the subscribers are the caller's. *)
Definition callerRequest (request : ClientRequest) : Prop :=
  forall event fs, _events request !! event = Some fs -> Forall isUserListener fs.

(** The mean buffer size of the open sockets exceeds the cap: the sum of
    the sizes over the number of sockets, compared as doubles. *)
Definition totalBufferSize (socks : list Socket) : Z :=
  foldr (fun s total => bufferSize s + total) 0 socks.

Definition meanBufferExceeds (socks : list Socket) (cap : Z) : bool :=
  JS.quotGt (totalBufferSize socks) (len socks) cap.

(** The transport holds nothing for an endpoint in one of its tables: no
    entry, or an empty list. *)
Definition noEntries {A} (table : gmap string (list A)) (endpoint : string) : Prop :=
  table !! endpoint = None \/ table !! endpoint = Some [].

(** ** Scenarios: the agents, transports, limiters and requests of the
    examples *)

(** The agent of scenario S2: target rate 100, every other option left out;
    five sockets open of at most five, so that the default direction
    function goes by the outcome's code. *)
Definition agentS2 : Agent :=
  constructor
    (mkOptions (Some 100) None None None None None None None None None None) 0.

Definition transportS2 : Transport :=
  mkTransport {["h:80:" := replicate 5 (mkSocket 0)]} ∅ ∅ (JS.Int 5) (fun _ => "h:80:").

(** The limiter at [limit = 100] after ten successes and four failures of
    the interval that began at instant 0. *)
Definition limiterS2 : RateLimiter :=
  mkLimiter 100 1000 14 14 0 10 10 4 100 0 "h:80:" "".

(** A boundary with [diff = 0]: 18 successes and one failure. *)
Definition limiterBalanced : RateLimiter :=
  mkLimiter 100 1000 19 19 0 10 18 0 100 0 "h:80:" "".

(** Scenario S3: [maxPending = 3] and three requests pending for the
    endpoint. *)
Definition agentS3 : Agent :=
  constructor
    (mkOptions None None None None None None None (Some 3) None None None) 0.

Definition pendingRequest : ClientRequest := mkRequest ∅ None None.

Definition transportS3 : Transport :=
  mkTransport ∅ ∅ {["h:80:" := replicate 3 pendingRequest]} (JS.Inf false)
    (fun _ => "h:80:").

(** Scenario S4: [maxBuffer = 50], two open sockets whose buffers hold 300
    each, and a limiter that has admitted a token in this interval, with an
    average time of 200 and of 500. *)
Definition limiterS4 (avg : Z) : RateLimiter :=
  mkLimiter 100 1000 1 1 0 avg 0 0 MAX_RATE 0 "h:80:" "".

Definition agentS4 (avg : Z) : Agent :=
  mkAgent (cfg (constructor noOptions 0)) {["h:80:" := limiterS4 avg]} 0.

Definition transportS4 : Transport :=
  mkTransport {["h:80:" := replicate 2 (mkSocket 300)]} ∅ ∅ (JS.Inf false)
    (fun _ => "h:80:").

(** Scenario S6: a limiter at [limit = 80] under the target 100, and a
    [getRate] that now answers 50. *)
Definition limiterS6 : RateLimiter :=
  mkLimiter 80 1000 0 0 0 0 0 0 100 0 "h:80:" "".

Definition agentS6 : Agent :=
  mkAgent
    (cfg (constructor
       (mkOptions None None None None None (Some (fun _ _ => 50)) None None None
          None None) 0))
    {["h:80:" := limiterS6]} 0.

(** Scenario S5: a limiter whose interval began at instant 0, swept at
    61 s, with nothing held for its endpoint and with one free socket. *)
Definition limiterS5 : RateLimiter :=
  mkLimiter 100 1000 1 1 0 0 0 0 MAX_RATE 0 "h1:80:" "".

Definition agentS5 : Agent :=
  mkAgent (cfg (constructor noOptions 0)) {["h1:80:" := limiterS5]} 0.

Definition transportIdle : Transport :=
  mkTransport ∅ ∅ ∅ (JS.Inf false) (fun _ => "h2:80:").

Definition transportHeld : Transport :=
  mkTransport ∅ {["h1:80:" := [mkSocket 0]]} ∅ (JS.Inf false) (fun _ => "h2:80:").

(** The request once [addRequest] has subscribed its three closures:
    after the subscribers of the caller, one closure for each event. *)
Definition subscribed (startTime : Z) (request : ClientRequest) : Prop :=
  exists onResponse onError onAbort,
    Forall isUserListener onResponse /\ Forall isUserListener onError /\
    Forall isUserListener onAbort /\
    _events request !! "response" = Some (onResponse ++ [OnResponse startTime]) /\
    _events request !! "error" = Some (onError ++ [OnError startTime]) /\
    _events request !! "abort" = Some (onAbort ++ [OnAbort]).

(** A request whose caller subscribed to [error], and the request info of
    a plain call and of a call with a timeout of 500 ms. *)
Definition watchedRequest : ClientRequest :=
  mkRequest {["error" := [UserListener 0 1]]} None None.

(** A request whose only subscriber to [error] declares no parameter, as
    after [request.on('error', () => retry())]. *)
Definition silentRequest : ClientRequest :=
  mkRequest {["error" := [UserListener 0 0]]} None None.

Definition plainInfo : Info := mkInfo None None.
Definition timedInfo : Info := mkInfo None (Some 500).

(** The request of a caller with a timeout of 500 ms, handed to the
    underlying transport by the agent of scenario S2 at instant 0, and the
    limiter that its closures captured. *)
Definition forwardedS2 : Agent * ClientRequest * list Effect :=
  @addRequest specLimiter agentS2 transportS2 0 pendingRequest timedInfo.

Definition capturedS2 : RateLimiter :=
  (@_getLimiter specLimiter agentS2 0 "h:80:" "").2.

(** An agent in pre-check mode, and what [Url.parse] answers for an https
    URL without a port and for an http URL with one. *)
Definition agentPrecheck : Agent :=
  constructor
    (mkOptions None None None None None None None None None (Some true) None) 0.

Definition parseExample (url : string) : UrlObject :=
  if decide (url = "https://example.com/a") then
    mkUrl (Some "https:") (Some "example.com") None
  else if decide (url = "http://example.com:8080/a") then
    mkUrl (Some "http:") (Some "example.com") (Some "8080")
  else mkUrl None None None.

(** The outcomes of scenario S2 with their instants: ten responses with
    status 200 and five timeouts, the last one at the boundary. *)
Definition outcomesS2 : list (Z * Code) :=
  ((fun t => (t, CNum 200)) <$> [10; 20; 30; 40; 50; 60; 70; 80; 90; 100]) ++
  ((fun t => (t, CStr "ETIMEDOUT")) <$> [200; 400; 600; 800; 1000]).

(** ** Statistics *)

(** What [limiter.getStat()] returns, as far as [getStats] reads it. *)
Record LimiterStat := mkLimiterStat {
  stat_accepted : N;
  stat_incoming : N;
  stat_limit : Z;
  stat_averageTime : Z
}.

(** One entry of the object that [getStats] returns. *)
Record EndpointStat := mkEndpointStat {
  s_name : string;
  s_accepted : N;
  s_incoming : N;
  s_rate : Z;
  s_averageTime : Z;
  s_used : Z;
  s_free : Z;
  s_pending : Z;
  s_bufferSize : Z
}.

(** Modelled from the spec: [getStat] of the limiter of section 4.1, a
    snapshot of the accepted and incoming counts, the limit and the average
    time. *)
Definition specGetStat (limiter : RateLimiter) : LimiterStat :=
  mkLimiterStat (tokensThisInterval limiter) (incomingThisInterval limiter)
    (limit limiter) (averageTime limiter).

Section Stats.

(** [limiter.getStat], a method of the limiter's package. *)
Variable getStat : RateLimiter -> LimiterStat.

(** [limiter.flag || name] *)
Definition statLabel (limiter : RateLimiter) : string :=
  if decide (flag limiter = "") then name limiter else flag limiter.

(** The loop of lines 237-241: the sizes that are not falsy are added up. *)
Definition statBufferSize (socks : option (list Socket)) : Z :=
  match socks with
  | Some socks =>
      foldl (fun size s => if bufferSize s =? 0 then size else size + bufferSize s)
        0 socks
  | None => 0
  end.

Definition tableLength {A} (entry : option (list A)) : Z :=
  match entry with Some l => len l | None => 0 end.

Definition statOf (T : Transport) (limiter : RateLimiter) : EndpointStat :=
  let limiterStat := getStat limiter in
  let socks := sockets T !! name limiter in
  mkEndpointStat (name limiter)
    (stat_accepted limiterStat) (stat_incoming limiterStat)
    (stat_limit limiterStat) (stat_averageTime limiterStat)
    (tableLength socks)
    (tableLength (freeSockets T !! name limiter))
    (tableLength (requests T !! name limiter))
    (statBufferSize socks).

(** [getStats] (source lines 229-255) over the entries of the registry in
    the order in which [Object.keys] lists them: a later entry with the
    label of an earlier one takes its place. *)
Definition getStatsOver (T : Transport) (entries : list (string * RateLimiter))
  : gmap string EndpointStat :=
  foldl (fun stats '(key, limiter) => <[statLabel limiter := statOf T limiter]> stats)
    ∅ entries.

(** [getStats] in the order of the model's own listing of the registry
    (the properties below hold for every order). *)
Definition getStats (a : Agent) (T : Transport) : gmap string EndpointStat :=
  getStatsOver T (map_to_list (rateLimiters a)).

End Stats.

(** The calls that cancel the timer of a request, among the calls made. *)
Definition timerClears (eff : list Effect) : list unit :=
  omap (fun e => match e with ClearTimeout => Some () | _ => None end) eff.

(** The calls that destroy the socket of a request, among the calls made. *)
Definition socketDestroys (eff : list Effect) : list unit :=
  omap (fun e => match e with DestroySocket => Some () | _ => None end) eff.

(** A koefficient at the top of the double range, 2^1023, and the config
    of scenario S2 with it as the raise koefficient. *)
Definition hugeKoef : JS.Koef := JS.mkKoef false 4503599627370496 971 eq_refl.

Definition agentHuge : Agent :=
  constructor
    (mkOptions (Some 100) None None None (Some hugeKoef) None None None None None None) 0.

(** A limiter at [limit = 50] under the target 100 with one success
    counted, and one with four failures counted. *)
Definition limiterRaising : RateLimiter :=
  mkLimiter 50 1000 1 1 0 10 1 0 100 0 "h:80:" "".

Definition limiterLowering : RateLimiter :=
  mkLimiter 50 1000 4 4 0 10 0 4 100 0 "h:80:" "".

(** A transport with no socket and no request for any endpoint but with
    [getName] answering [h:80:]. *)
Definition transportFree : Transport :=
  mkTransport ∅ ∅ ∅ (JS.Inf false) (fun _ => "h:80:").

(** Two endpoints whose names and flags concatenate to one key. *)
Definition agentShared : Agent :=
  mkAgent (cfg (constructor noOptions 0))
    {["h:80:x" := mkLimiter 100 1000 0 0 0 0 0 0 MAX_RATE 0 "h:80:" "x"]} 0.

(** A registry with two limiters under their own labels, the second one
    expired at 61 s when nothing is held for it. *)
Definition agentTwo : Agent :=
  mkAgent (cfg (constructor noOptions 0))
    {["h:80:" := limiterS4 200; "h1:80:" := limiterS5]} 0.

(** A request with a socket attached and its timer armed, after the
    subscriptions of [addRequest] at instant 0. *)
Definition socketRequest : ClientRequest :=
  mkRequest
    {["response" := [OnResponse 0]; "error" := [UserListener 0 1; OnError 0];
      "abort" := [OnAbort]]}
    (Some 500) (Some (mkSocket 0)).

(** * Properties *)

(** ** Numbers *)

Lemma orElse_zero (d : Z) : JS.orElse 0 d = d.
Proof. reflexivity. Qed.

Lemma orElse_nonzero (x d : Z) : x ≠ 0 -> JS.orElse x d = x.
Proof. intros Hx. unfold JS.orElse. destruct (Z.eqb_spec x 0); congruence. Qed.

Lemma orElse_truthy (x d : Z) : d ≠ 0 -> JS.orElse x d ≠ 0.
Proof. intros Hd. unfold JS.orElse. destruct (Z.eqb_spec x 0); congruence. Qed.

(** Rounding never yields NaN: the mantissa stays non-negative through the
    shifts and the rounding.  So the product of an integer and a
    koefficient is a zero, a finite double or an infinity, and [JS.floor]
    never takes its last case in [JS.floorMul]. *)
Section NoNaN.

Lemma shr_1_nonneg (mrs : shr_record) : 0 <= shr_m mrs -> 0 <= shr_m (shr_1 mrs).
Proof. destruct mrs as [m r s]. destruct m as [|[p|p|]|p]; simpl; lia. Qed.

Lemma iter_shr_1_nonneg (p : positive) :
  forall mrs, 0 <= shr_m mrs -> 0 <= shr_m (SpecFloat.iter_pos shr_1 p mrs).
Proof.
  induction p as [p IH|p IH|]; simpl; intros mrs Hm.
  - apply IH, IH. by apply shr_1_nonneg.
  - by apply IH, IH.
  - by apply shr_1_nonneg.
Qed.

Lemma shr_fexp_nonneg (m e : Z) (l : location) :
  0 <= m -> 0 <= shr_m (shr_fexp JS.prec JS.emax m e l).1.
Proof.
  intros Hm. unfold shr_fexp, shr.
  assert (H0 : 0 <= shr_m (shr_record_of_loc m l)) by (by destruct l as [|[]]).
  destruct (fexp JS.prec JS.emax (Zdigits2 m + e) - e); simpl; try done.
  by apply iter_shr_1_nonneg.
Qed.

Lemma round_nearest_even_nonneg (m : Z) (l : location) :
  0 <= m -> 0 <= round_nearest_even m l.
Proof.
  intros Hm. destruct l as [|[]]; simpl; try lia. destruct (Z.even m); lia.
Qed.

Lemma binary_round_aux_not_nan (s : bool) (m e : Z) (l : location) :
  0 <= m -> binary_round_aux JS.prec JS.emax s m e l ≠ S754_nan.
Proof.
  intros Hm. unfold binary_round_aux.
  pose proof (shr_fexp_nonneg m e l Hm) as H1.
  destruct (shr_fexp JS.prec JS.emax m e l) as [mrs1 e1]. simpl in H1.
  pose proof (shr_fexp_nonneg _ e1 loc_Exact
                (round_nearest_even_nonneg _ (loc_of_shr_record mrs1) H1)) as H2.
  destruct (shr_fexp JS.prec JS.emax _ e1 loc_Exact) as [mrs2 e2]. simpl in H2.
  destruct (shr_m mrs2); [done| |lia]. by destruct (_ <=? _).
Qed.

Lemma ofZ_not_nan (z : Z) : JS.ofZ z ≠ S754_nan.
Proof.
  unfold JS.ofZ, binary_normalize, binary_round. destruct z as [|m|m]; [done|..];
    destruct (shl_align _ _ _); by apply binary_round_aux_not_nan.
Qed.

Lemma product_not_nan (z : Z) (k : JS.Koef) :
  SFmul JS.prec JS.emax (JS.ofZ z) (JS.ofKoef k) ≠ S754_nan.
Proof.
  pose proof (ofZ_not_nan z) as Hz. unfold JS.ofKoef.
  destruct (JS.ofZ z); simpl; [done|done|done|].
  by apply binary_round_aux_not_nan.
Qed.

End NoNaN.

(** The source's literals 0.2 and 0.02 are the correctly rounded quotients
    1/5 and 2/100. *)
Lemma RATE_LOWER_KOEF_value :
  JS.ofKoef RATE_LOWER_KOEF = SFdiv JS.prec JS.emax (JS.ofZ 1) (JS.ofZ 5).
Proof. reflexivity. Qed.

Lemma RATE_RAISE_KOEF_value :
  JS.ofKoef RATE_RAISE_KOEF = SFdiv JS.prec JS.emax (JS.ofZ 2) (JS.ofZ 100).
Proof. reflexivity. Qed.

(** Case analysis on the integer comparisons of a goal. *)
Ltac compare_cases :=
  repeat case_match;
  rewrite ?Z.ltb_lt, ?Z.ltb_ge, ?Z.leb_le, ?Z.leb_gt, ?Z.eqb_eq, ?Z.eqb_neq in *.

Section ClampFacts.

Lemma clampLimit_int (rate z : Z) :
  clampLimit rate (JS.Int z) = Z.max MIN_RATE (Z.min rate z).
Proof.
  unfold clampLimit, MIN_RATE. compare_cases; lia.
Qed.

Lemma clampLimit_bounds (rate : Z) (x : JS.num) :
  MIN_RATE <= clampLimit rate x <= Z.max rate MIN_RATE.
Proof.
  unfold clampLimit, MIN_RATE. destruct x as [z|[|]].
  - compare_cases; lia.
  - lia.
  - compare_cases; lia.
Qed.

(** An overflowing step ends at the target when it raises and at
    [MIN_RATE] when it lowers, as every step that is large enough does. *)
Lemma clampLimit_inf (rate : Z) (neg : bool) :
  clampLimit rate (JS.Inf neg) = if neg then MIN_RATE else Z.max MIN_RATE rate.
Proof.
  unfold clampLimit, MIN_RATE. destruct neg; [done|].
  compare_cases; lia.
Qed.

Lemma nextLimit_finite (c : Config) (rate diff lim q : Z) :
  JS.floorMul lim (if diff <? 0 then rateLowerKoef c else rateRaiseKoef c) = JS.Int q ->
  nextLimit c rate diff lim =
    Z.max MIN_RATE (Z.min rate (lim + Z.sgn diff * Z.max q 1)).
Proof.
  intros Hq. unfold nextLimit. rewrite Hq. simpl. apply clampLimit_int.
Qed.

Lemma nextLimit_bounds (c : Config) (rate diff lim : Z) :
  MIN_RATE <= nextLimit c rate diff lim <= Z.max rate MIN_RATE.
Proof. apply clampLimit_bounds. Qed.

End ClampFacts.

(** The limiter of the spec keeps the contract. *)
Lemma specLimiter_laws : LimiterLaws specLimiter.
Proof.
  split.
  - intros v l Hv. simpl. unfold SpecLimiter.setLimit, MIN_RATE, MAX_RATE in *.
    simpl. lia.
  - intros v l. by repeat split.
Qed.

(** ** The feedback engine *)

Section FeedbackFacts.

Context {L : LimiterClass}.

Lemma tally_frame (dir : Z) (l : RateLimiter) :
  limit (tally dir l) = limit l /\ lastRateTime (tally dir l) = lastRateTime l /\
  name (tally dir l) = name l /\ flag (tally dir l) = flag l /\
  lastRate (tally dir l) = lastRate l.
Proof. unfold tally. destruct (dir =? 1), (dir =? -1); by repeat split. Qed.

(** What [_changeRate] does at a boundary, by the two cases of [diff]. *)
Lemma changeRate_boundary (c : Config) (T : Transport) (now : Z)
    (limiter : RateLimiter) (code : Code) :
  let l1 := tally (getRateDirection c code T limiter) limiter in
  let l2 := set_lastRateTime now l1 in
  lastRateTime limiter + rateInterval c <= now ->
  _changeRate c T now limiter code =
    set_failed 0 (set_success 0
      (if decide (tallyDiff c l1 = 0) then l2
       else setLimit
              (nextLimit c (effectiveRate c (name limiter) (flag limiter))
                 (tallyDiff c l1) (limit limiter)) l2)).
Proof.
  intros l1 l2 Hb. unfold _changeRate. fold l1.
  destruct (tally_frame (getRateDirection c code T limiter) limiter)
    as (Hl & Ht & Hn & Hf & _). fold l1 in Hl, Ht, Hn, Hf.
  rewrite Ht, Hn, Hf. destruct (Z.leb_spec (lastRateTime limiter + rateInterval c) now); [|lia].
  change (tallyDiff c (set_lastRateTime now l1)) with (tallyDiff c l1).
  change (limit (set_lastRateTime now l1)) with (limit l1). rewrite Hl.
  fold l2. destruct (Z.eqb_spec (tallyDiff c l1) 0); case_decide; simpl; congruence.
Qed.

Lemma changeRate_inside (c : Config) (T : Transport) (now : Z)
    (limiter : RateLimiter) (code : Code) :
  now < lastRateTime limiter + rateInterval c ->
  _changeRate c T now limiter code = tally (getRateDirection c code T limiter) limiter.
Proof.
  intros Hb. unfold _changeRate.
  destruct (tally_frame (getRateDirection c code T limiter) limiter) as (_ & Ht & _).
  rewrite Ht. destruct (Z.leb_spec (lastRateTime limiter + rateInterval c) now); [lia|done].
Qed.

End FeedbackFacts.

(** C1. At a rate-adjustment boundary ([lastRateTime + rateInterval <= now])
    with tallies [s], [f] (the outcome being reported counted in), let
    [diff = s - f * rateLowerWeight] and [target = getRate(name, flag) ||
    MAX_RATE].  If [diff <> 0], [_changeRate] hands to [setLimit] the limit
    [limit + sign(diff) * max(floor(limit * koef), 1)], with [rateLowerKoef]
    for [diff < 0] and [rateRaiseKoef] otherwise, clamped to at most [target]
    and then to at least [MIN_RATE]; when the double product is finite this
    is the integer [max(MIN_RATE, min(target, limit + sgn(diff) * max(q, 1)))],
    and a limiter that keeps its contract has it as its new [limit] whenever
    the target is at most [MAX_RATE].  The instance of scenario S2
    ([limit = 100], 10 successes, 5 failures, weight 18, koef 0.2, new limit
    80) is [changeRate_new_limit_S2]. *)
Theorem changeRate_new_limit {L : LimiterClass} (c : Config) (T : Transport)
    (now : Z) (limiter : RateLimiter) (code : Code) :
  let counted := tally (getRateDirection c code T limiter) limiter in
  let s := Z.of_N (success counted) in
  let f := Z.of_N (failed counted) in
  let diff := s - f * rateLowerWeight c in
  let target := JS.orElse (getRate c (name limiter) (flag limiter)) MAX_RATE in
  let koef := if diff <? 0 then rateLowerKoef c else rateRaiseKoef c in
  let step := JS.max1 (JS.floorMul (limit limiter) koef) in
  let newLimit := clampLimit target (JS.plus (limit limiter) (JS.signed diff step)) in
  lastRateTime limiter + rateInterval c <= now ->
  diff <> 0 ->
  _changeRate c T now limiter code =
    set_failed 0 (set_success 0 (setLimit newLimit (set_lastRateTime now counted))) /\
  (forall q, JS.floorMul (limit limiter) koef = JS.Int q ->
     newLimit = Z.max MIN_RATE (Z.min target (limit limiter + Z.sgn diff * Z.max q 1))) /\
  (LimiterLaws L -> target <= MAX_RATE ->
     limit (_changeRate c T now limiter code) = newLimit).
Proof.
  intros counted s f diff target koef step newLimit Hb Hd.
  assert (Heq : _changeRate c T now limiter code =
    set_failed 0 (set_success 0 (setLimit newLimit (set_lastRateTime now counted)))).
  { rewrite changeRate_boundary by done. fold counted.
    change (tallyDiff c counted) with diff. by case_decide. }
  split; [done|]. split.
  - intros q Hq. subst newLimit step. rewrite Hq. simpl. apply clampLimit_int.
  - intros LL Ht. rewrite Heq. simpl. apply setLimit_installs.
    pose proof (clampLimit_bounds target (JS.plus (limit limiter) (JS.signed diff step))).
    fold newLimit in H. unfold MIN_RATE, MAX_RATE in *. lia.
Qed.

Lemma changeRate_new_limit_S2 :
  lastRateTime limiterS2 + rateInterval (cfg agentS2) <= 1000 /\
  Z.of_N (success (tally (-1) limiterS2)) = 10 /\
  Z.of_N (failed (tally (-1) limiterS2)) = 5 /\
  rateLowerWeight (cfg agentS2) = 18 /\
  rateLowerKoef (cfg agentS2) = RATE_LOWER_KOEF /\
  limit limiterS2 = 100 /\
  limit (@_changeRate specLimiter (cfg agentS2) transportS2 1000 limiterS2
           (CStr "ETIMEDOUT")) = 80.
Proof.
  repeat (split; [reflexivity || (vm_compute; discriminate)|]).
  destruct (@changeRate_new_limit specLimiter (cfg agentS2) transportS2 1000
              limiterS2 (CStr "ETIMEDOUT")) as (_ & _ & H).
  - vm_compute. discriminate.
  - vm_compute. discriminate.
  - rewrite H.
    + reflexivity.
    + exact specLimiter_laws.
    + vm_compute. discriminate.
Defined.

(** C8. At every rate-adjustment boundary [success] and [failed] are zero
    afterwards and [lastRateTime] is [now], whatever [diff] is (for
    [diff <> 0] the call of [setLimit] comes after the assignment of
    [lastRateTime], and a limiter that keeps its contract leaves it alone);
    and when [diff = success - failed * rateLowerWeight] is 0 the limiter is
    the counted one with only these three fields assigned: [limit] is
    unchanged and [setLimit] has no part in the result. *)
Theorem changeRate_boundary_resets {L : LimiterClass} (c : Config) (T : Transport)
    (now : Z) (limiter : RateLimiter) (code : Code) :
  let counted := tally (getRateDirection c code T limiter) limiter in
  let diff := Z.of_N (success counted) - Z.of_N (failed counted) * rateLowerWeight c in
  let after := _changeRate c T now limiter code in
  lastRateTime limiter + rateInterval c <= now ->
  success after = 0%N /\ failed after = 0%N /\
  (LimiterLaws L -> lastRateTime after = now) /\
  (diff = 0 ->
     after = set_failed 0 (set_success 0 (set_lastRateTime now counted)) /\
     limit after = limit limiter /\ lastRateTime after = now).
Proof.
  intros counted diff after Hb. subst after.
  rewrite changeRate_boundary by done. fold counted.
  change (tallyDiff c counted) with diff.
  split; [done|]. split; [done|]. split.
  - intros LL. case_decide; [done|]. simpl.
    by destruct (setLimit_agent_fields
      (nextLimit c (effectiveRate c (name limiter) (flag limiter)) diff (limit limiter))
      (set_lastRateTime now counted)) as (_ & _ & _ & ->).
  - intros Hd. case_decide; [|done]. simpl.
    split; [done|]. split; [|done]. apply tally_frame.
Qed.

Lemma changeRate_boundary_resets_balanced :
  lastRateTime limiterBalanced + rateInterval (cfg agentS2) <= 1000 /\
  @_changeRate specLimiter (cfg agentS2) transportS2 1000 limiterBalanced
     (CStr "ETIMEDOUT") =
    mkLimiter 100 1000 19 19 0 10 0 0 100 1000 "h:80:" "".
Proof.
  split; [vm_compute; discriminate|].
  destruct (@changeRate_boundary_resets specLimiter (cfg agentS2) transportS2 1000
              limiterBalanced (CStr "ETIMEDOUT")) as (_ & _ & _ & H).
  - vm_compute. discriminate.
  - destruct H as (-> & _); reflexivity.
Defined.

(** ** The admission check *)

Section AdmissionFacts.

Context {L : LimiterClass}.


Lemma reject_fields (withFailed : bool) (l : RateLimiter) :
  incomingThisInterval (reject withFailed l) = (incomingThisInterval l + 1)%N /\
  failed (reject withFailed l) = (failed l + (if withFailed then 1 else 0))%N /\
  tokensThisInterval (reject withFailed l) = tokensThisInterval l /\
  limit (reject withFailed l) = limit l /\
  success (reject withFailed l) = success l.
Proof. unfold reject. destruct withFailed; simpl; repeat split; lia. Qed.

Lemma bufferTotals_from (socks : list Socket) (size count : Z) :
  foldl (fun '(size, count) s => (size + bufferSize s, count + 1)) (size, count) socks =
  (size + totalBufferSize socks, count + len socks).
Proof.
  revert size count. induction socks as [|s socks IH]; intros size count.
  - unfold totalBufferSize, len. simpl. f_equal; lia.
  - simpl. rewrite IH. unfold totalBufferSize, len. simpl. f_equal; lia.
Qed.

Lemma bufferTotals_spec (socks : list Socket) :
  bufferTotals socks = (totalBufferSize socks, len socks).
Proof. unfold bufferTotals. by rewrite bufferTotals_from. Qed.

Lemma len_zero {A} (l : list A) : len l = 0 <-> l = [].
Proof. unfold len. destruct l; simpl; split; intros; (done || lia). Qed.

Lemma bufferPressure_spec (c : Config) (T : Transport) (name : string)
    (limiter : RateLimiter) :
  bufferPressure c T name limiter = true <->
  (1 <= tokensThisInterval limiter)%N /\
  exists socks, sockets T !! name = Some socks /\ socks ≠ [] /\
    meanBufferExceeds socks (bufferCap c limiter) = true.
Proof.
  unfold bufferPressure.
  destruct (N.eqb_spec (tokensThisInterval limiter) 0) as [H0|H0]; simpl.
  - split; [done|]. intros [? _]. lia.
  - destruct (sockets T !! name) as [socks|]; simpl.
    + rewrite bufferTotals_spec, andb_true_iff, negb_true_iff, Z.eqb_neq, len_zero.
      split.
      * intros [Hne Hm]. split; [lia|]. by exists socks.
      * intros (_ & socks' & [= <-] & Hne & Hm). done.
    + split; [done|]. by intros (_ & socks & ? & _).
Qed.

(** [_canAcceptRequest] by its three rules. *)
Lemma canAcceptRequest_rules (a : Agent) (T : Transport) (now : Z)
    (name flag : string) (withFailed : bool) :
  let fetched := _getLimiter a now name flag in
  _canAcceptRequest a T now name flag withFailed =
    if queueFull (cfg a) T name || bufferPressure (cfg a) T name fetched.2
    then (store (name +:+ flag) (reject withFailed fetched.2) fetched.1, false)
    else (store (name +:+ flag) (accept now 1%N fetched.2).2 fetched.1,
          (accept now 1%N fetched.2).1).
Proof.
  simpl. unfold _canAcceptRequest. simpl.
  destruct (queueFull (cfg a) T name); [done|]. simpl.
  destruct (bufferPressure _ _ _ _); [done|].
  by destruct (accept now 1%N _).
Qed.

End AdmissionFacts.

(** C3. When the pending queue of [name] has at least [maxPending] entries
    the admission check returns [false] and leaves in the registry the
    fetched limiter with [incomingThisInterval] one more, [failed] one more
    iff [withFailed], and [tokensThisInterval] (the accepted count) as it
    was; with [maxPending - 1] entries the queue gate does not fire, and the
    verdict is that of the buffer gate and the token bucket. *)
Theorem canAccept_queue_gate {L : LimiterClass} (a : Agent) (T : Transport)
    (now : Z) (name flag : string) (withFailed : bool)
    (pending : list ClientRequest) :
  let fetched := _getLimiter a now name flag in
  let limiter := fetched.2 in
  let result := _canAcceptRequest a T now name flag withFailed in
  requests T !! name = Some pending ->
  (maxPending (cfg a) <= len pending ->
     result.2 = false /\
     exists after, rateLimiters result.1 !! (name +:+ flag) = Some after /\
       incomingThisInterval after = (incomingThisInterval limiter + 1)%N /\
       failed after = (failed limiter + (if withFailed then 1 else 0))%N /\
       (failed after = (failed limiter + 1)%N <-> withFailed = true) /\
       tokensThisInterval after = tokensThisInterval limiter) /\
  (len pending = maxPending (cfg a) - 1 ->
     queueFull (cfg a) T name = false /\
     result =
       if bufferPressure (cfg a) T name limiter
       then (store (name +:+ flag) (reject withFailed limiter) fetched.1, false)
       else (store (name +:+ flag) (accept now 1%N limiter).2 fetched.1,
             (accept now 1%N limiter).1)).
Proof.
  intros fetched limiter result Hp. subst result.
  rewrite canAcceptRequest_rules. fold fetched. fold limiter.
  unfold queueFull. rewrite Hp. simpl. split.
  - intros Hfull. destruct (Z.leb_spec (maxPending (cfg a)) (len pending)); [|lia].
    simpl. split; [done|]. exists (reject withFailed limiter).
    split; [apply lookup_insert_eq|].
    destruct (reject_fields withFailed limiter) as (Hi & Hf & Ht & _).
    repeat split; try done.
    + rewrite Hf. destruct withFailed; [done|lia].
    + intros ->. by rewrite Hf.
  - intros Hlen. destruct (Z.leb_spec (maxPending (cfg a)) (len pending)); [lia|].
    done.
Qed.

Lemma canAccept_queue_gate_S3 :
  requests transportS3 !! "h:80:" = Some (replicate 3 pendingRequest) /\
  maxPending (cfg agentS3) <= len (replicate 3 pendingRequest) /\
  (@_canAcceptRequest specLimiter agentS3 transportS3 5 "h:80:" "" false).2 = false.
Proof.
  split; [reflexivity|]. split; [vm_compute; discriminate|].
  destruct (@canAccept_queue_gate specLimiter agentS3 transportS3 5 "h:80:" "" false
              (replicate 3 pendingRequest)) as [H _].
  - reflexivity.
  - apply H. vm_compute. discriminate.
Defined.

(** C4. For an admission check that has passed the queue gate, the buffer
    gate fires iff the fetched limiter has admitted at least one token in
    the interval, the transport has a list of open sockets for [name], the
    list is not empty and the mean [bufferSize] over it exceeds the cap,
    which is [maxBuffer * 7] when [averageTime < 400] and [maxBuffer]
    otherwise; without a token or without a socket list it is not evaluated.
    When it fires the check returns [false] and stores the limiter with the
    counter updates of the queue gate ([reject]); when it does not, the
    verdict and the limiter are those of [accept(1)]. *)
Theorem canAccept_buffer_gate {L : LimiterClass} (a : Agent) (T : Transport)
    (now : Z) (name flag : string) (withFailed : bool) :
  let fetched := _getLimiter a now name flag in
  let limiter := fetched.2 in
  let cap :=
    if averageTime limiter <? 400 then maxBuffer (cfg a) * 7 else maxBuffer (cfg a) in
  let fires := bufferPressure (cfg a) T name limiter in
  let result := _canAcceptRequest a T now name flag withFailed in
  queueFull (cfg a) T name = false ->
  (fires = true <->
     (1 <= tokensThisInterval limiter)%N /\
     exists socks, sockets T !! name = Some socks /\ socks ≠ [] /\
       meanBufferExceeds socks cap = true) /\
  (tokensThisInterval limiter = 0%N \/ sockets T !! name = None -> fires = false) /\
  (fires = true ->
     result.2 = false /\
     rateLimiters result.1 !! (name +:+ flag) = Some (reject withFailed limiter) /\
     incomingThisInterval (reject withFailed limiter) =
       (incomingThisInterval limiter + 1)%N /\
     failed (reject withFailed limiter) =
       (failed limiter + (if withFailed then 1 else 0))%N /\
     tokensThisInterval (reject withFailed limiter) = tokensThisInterval limiter) /\
  (fires = false ->
     result = (store (name +:+ flag) (accept now 1%N limiter).2 fetched.1,
               (accept now 1%N limiter).1)).
Proof.
  intros fetched limiter cap fires result Hq. subst result.
  rewrite canAcceptRequest_rules. fold fetched. fold limiter. rewrite Hq. simpl.
  fold fires. split; [apply bufferPressure_spec|]. split.
  - intros Hno. destruct fires eqn:Hf; [|done]. exfalso.
    apply bufferPressure_spec in Hf as (Ht & socks & Hs & _).
    destruct Hno as [H0|H0]; [lia|congruence].
  - split; intros ->; [|done]. simpl. split; [done|].
    split; [apply lookup_insert_eq|].
    by destruct (reject_fields withFailed limiter) as (? & ? & ? & _).
Qed.

Lemma canAccept_buffer_gate_S4 :
  queueFull (cfg (agentS4 500)) transportS4 "h:80:" = false /\
  meanBufferExceeds (replicate 2 (mkSocket 300)) (50 * 7) = false /\
  meanBufferExceeds (replicate 2 (mkSocket 300)) 50 = true /\
  (@_canAcceptRequest specLimiter (agentS4 200) transportS4 5 "h:80:" "" false).2 = true /\
  (@_canAcceptRequest specLimiter (agentS4 500) transportS4 5 "h:80:" "" false).2 = false.
Proof.
  do 4 (split; [reflexivity|]).
  destruct (@canAccept_buffer_gate specLimiter (agentS4 500) transportS4 5 "h:80:" ""
              false) as (_ & _ & H & _).
  - reflexivity.
  - apply H. reflexivity.
Defined.

(** ** The limiter registry *)

Section RegistryFacts.

Context {L : LimiterClass}.

Lemma effectiveRate_nonzero (c : Config) (name flag : string) :
  effectiveRate c name flag ≠ 0.
Proof. by apply orElse_truthy. Qed.

Lemma getLimiter_created (a : Agent) (now : Z) (name flag : string) :
  rateLimiters a !! (name +:+ flag) = None ->
  (_getLimiter a now name flag).2 = createLimiter (cfg a) now name flag.
Proof.
  intros Hn. unfold _getLimiter. rewrite Hn. simpl.
  unfold retarget. by case_decide.
Qed.

Lemma getLimiter_existing (a : Agent) (now : Z) (name flag : string)
    (existing : RateLimiter) :
  rateLimiters a !! (name +:+ flag) = Some existing ->
  (_getLimiter a now name flag).2 =
    retarget (effectiveRate (cfg a) name flag) existing.
Proof. intros He. unfold _getLimiter. by rewrite He. Qed.

End RegistryFacts.



(** C9. A [getRate] that answers 0 for an endpoint counts as no answer: the
    target is [MAX_RATE = 1000000] in the creation of the limiter (which is
    built with the limit 1000000 and records [lastRate = 1000000]) and in the
    rate recomputation (whose result is clamped to 1000000, not to 0); and
    the endpoint is not blocked: with the limiter of the spec, the first
    admission check of such an endpoint that passes the queue gate is
    admitted. *)
Theorem falsy_rate_is_max_rate {L : LimiterClass} (a : Agent) (T : Transport)
    (now : Z) (endpoint label : string) :
  getRate (cfg a) endpoint label = 0 ->
  effectiveRate (cfg a) endpoint label = 1000000 /\
  (rateLimiters a !! (endpoint +:+ label) = None ->
     let created := (_getLimiter a now endpoint label).2 in
     created =
       set_flag label (set_name endpoint (set_lastRateTime now (set_lastRate 1000000
         (set_success 0 (set_failed 0
            (newLimiter 1000000 (rateInterval (cfg a)) now)))))) /\
     lastRate created = 1000000) /\
  (forall limiter code,
     name limiter = endpoint -> flag limiter = label ->
     lastRateTime limiter + rateInterval (cfg a) <= now ->
     let counted := tally (getRateDirection (cfg a) code T limiter) limiter in
     tallyDiff (cfg a) counted ≠ 0 ->
     _changeRate (cfg a) T now limiter code =
       set_failed 0 (set_success 0
         (setLimit (nextLimit (cfg a) 1000000 (tallyDiff (cfg a) counted) (limit limiter))
            (set_lastRateTime now counted)))) /\
  (rateLimiters a !! (endpoint +:+ label) = None ->
   queueFull (cfg a) T endpoint = false ->
   forall withFailed,
     (@_canAcceptRequest specLimiter a T now endpoint label withFailed).2 = true).
Proof.
  intros H0.
  assert (Hr : effectiveRate (cfg a) endpoint label = 1000000).
  { unfold effectiveRate. by rewrite H0. }
  split; [done|]. split; [|split].
  - intros Hn created. subst created. rewrite getLimiter_created by done.
    unfold createLimiter. by rewrite Hr.
  - intros limiter code Hname Hflag Hb counted Hd.
    rewrite changeRate_boundary by done. fold counted.
    rewrite Hname, Hflag, Hr. by case_decide.
  - intros Hn Hq withFailed.
    rewrite canAcceptRequest_rules, Hq, getLimiter_created by done.
    unfold createLimiter. rewrite Hr. simpl.
    unfold SpecLimiter.accept, SpecLimiter.rollover. simpl.
    by destruct (now + rateInterval (cfg a) <=? now).
Qed.

Lemma falsy_rate_is_max_rate_fresh :
  getRate (cfg (constructor
    (mkOptions None None None None None (Some (fun _ _ => 0)) None None None None None)
    0)) "h:80:" "" = 0 /\
  (@_canAcceptRequest specLimiter
     (constructor
        (mkOptions None None None None None (Some (fun _ _ => 0)) None None None None
           None) 0)
     transportS4 5 "h:80:" "" false).2 = true.
Proof.
  split; [reflexivity|].
  destruct (@falsy_rate_is_max_rate specLimiter
    (constructor
       (mkOptions None None None None None (Some (fun _ _ => 0)) None None None None
          None) 0)
    transportS4 5 "h:80:" "") as (_ & _ & _ & H); [reflexivity|].
  apply H; reflexivity.
Defined.

(** ** The cleanup sweep *)

Lemma isEmpty_spec {A} (table : gmap string (list A)) (endpoint : string) :
  isEmpty (table !! endpoint) = true <-> noEntries table endpoint.
Proof.
  unfold isEmpty, noEntries, absentOr. destruct (table !! endpoint) as [l|].
  - rewrite Z.eqb_eq. unfold len. destruct l; simpl; split.
    + by right.
    + done.
    + lia.
    + by intros [|].
  - split; [by left|done].
Qed.

Lemma expired_spec (T : Transport) (now : Z) (limiter : RateLimiter) :
  expired T now limiter = true <->
  curIntervalStart limiter + CLEANUP_TIME < now /\
  noEntries (sockets T) (name limiter) /\
  noEntries (freeSockets T) (name limiter) /\
  noEntries (requests T) (name limiter).
Proof.
  unfold expired. rewrite !andb_true_iff, !isEmpty_spec, Z.ltb_lt. tauto.
Qed.

(** The registry after the visits of [keys]: a key is gone iff it was
    visited and its limiter had expired. *)
Lemma foldl_sweep_lookup (T : Transport) (now : Z) (keys : list string) :
  forall (m : gmap string RateLimiter) (key : string),
    foldl (sweep T now) m keys !! key =
      match m !! key with
      | Some limiter =>
          if decide (key ∈ keys)
          then (if expired T now limiter then None else Some limiter)
          else Some limiter
      | None => None
      end.
Proof.
  induction keys as [|visited keys IH]; intros m key; cbn [foldl].
  - destruct (m !! key); [|done]. rewrite decide_False; [done|]. apply not_elem_of_nil.
  - rewrite IH. destruct (decide (key = visited)) as [->|Hne].
    + unfold sweep. destruct (m !! visited) as [limiter|] eqn:Hv.
      * rewrite (decide_True (P := visited ∈ visited :: keys)) by apply list_elem_of_here.
        destruct (expired T now limiter) eqn:He.
        -- by rewrite lookup_delete_eq.
        -- rewrite Hv, He. by case_decide.
      * by rewrite Hv.
    + assert (Hs : sweep T now m visited !! key = m !! key).
      { unfold sweep. destruct (m !! visited) as [limiter|]; [|done].
        destruct (expired T now limiter); [|done]. by apply lookup_delete_ne. }
      rewrite Hs. destruct (m !! key) as [limiter|]; [|done].
      destruct (decide (key ∈ keys)) as [Hin|Hin].
      * rewrite decide_True; [done|]. by apply list_elem_of_further.
      * rewrite decide_False; [done|]. rewrite elem_of_cons. tauto.
Qed.

Lemma cleanup_lookup (a : Agent) (T : Transport) (now : Z) (key : string) :
  rateLimiters (_cleanup a T now) !! key =
    match rateLimiters a !! key with
    | Some limiter => if expired T now limiter then None else Some limiter
    | None => None
    end.
Proof.
  unfold _cleanup. simpl. rewrite foldl_sweep_lookup.
  destruct (rateLimiters a !! key) as [limiter|] eqn:Hk; [|done].
  rewrite decide_True; [done|].
  apply list_elem_of_fmap. exists (key, limiter). split; [done|].
  by apply elem_of_map_to_list.
Qed.

(** C6. The sweep removes a limiter of the registry iff the start of its
    current interval plus [CLEANUP_TIME] (60000 ms) is before [now] and the
    transport holds no socket, no free socket and no pending request for
    the limiter's name; a limiter that is not removed stays as it is, so a
    limiter whose name has a socket, a free socket or a pending request is
    never removed. *)
Theorem cleanup_removes_idle (a : Agent) (T : Transport) (now : Z)
    (key : string) (limiter : RateLimiter) :
  let swept := rateLimiters (_cleanup a T now) in
  rateLimiters a !! key = Some limiter ->
  (swept !! key = None <->
     curIntervalStart limiter + 60000 < now /\
     noEntries (sockets T) (name limiter) /\
     noEntries (freeSockets T) (name limiter) /\
     noEntries (requests T) (name limiter)) /\
  (swept !! key ≠ None -> swept !! key = Some limiter) /\
  (¬ noEntries (sockets T) (name limiter) \/
   ¬ noEntries (freeSockets T) (name limiter) \/
   ¬ noEntries (requests T) (name limiter) ->
   swept !! key = Some limiter).
Proof.
  intros swept Hk. subst swept. rewrite cleanup_lookup, Hk.
  pose proof (expired_spec T now limiter) as He. change CLEANUP_TIME with 60000 in He.
  destruct (expired T now limiter).
  - split; [|split].
    + split; [intros _; by apply He|done].
    + done.
    + intros Hheld. assert (Hx : true = true) by done. apply He in Hx. tauto.
  - split; [|split].
    + split; [done|]. intros Hx. apply He in Hx. done.
    + done.
    + done.
Qed.

Lemma cleanup_removes_idle_S5 :
  rateLimiters agentS5 !! "h1:80:" = Some limiterS5 /\
  rateLimiters (_cleanup agentS5 transportIdle 61000) !! "h1:80:" = None /\
  rateLimiters (_cleanup agentS5 transportHeld 61000) !! "h1:80:" = Some limiterS5.
Proof.
  split; [reflexivity|]. split.
  - destruct (cleanup_removes_idle agentS5 transportIdle 61000 "h1:80:" limiterS5)
      as (H & _); [reflexivity|].
    apply H. repeat split; (reflexivity || by left).
  - destruct (cleanup_removes_idle agentS5 transportHeld 61000 "h1:80:" limiterS5)
      as (_ & _ & H); [reflexivity|].
    apply H. right; left. intros [Hn|Hn]; vm_compute in Hn; discriminate.
Defined.

(** ** The transport adapter *)

Section AdapterFacts.

Context {L : LimiterClass}.

Lemma hasListeners_spec (o : option (list Listener)) :
  hasListeners o = true <-> exists fs, o = Some fs /\ entryLength fs ≠ 0%nat.
Proof.
  unfold hasListeners, andThen. destruct o as [fs|].
  - rewrite negb_true_iff, Nat.eqb_neq. split.
    + intros Hne. by exists fs.
    + by intros (fs' & [= <-] & Hne).
  - split; [done|]. by intros (fs & ? & _).
Qed.

Lemma callerRequest_listeners (request : ClientRequest) (event : string) :
  callerRequest request -> Forall isUserListener (default [] (_events request !! event)).
Proof.
  intros Hc. destruct (_events request !! event) as [fs|] eqn:He; simpl; [|done].
  by apply (Hc event).
Qed.

Lemma on_subscribed (request : ClientRequest) (startTime : Z) :
  callerRequest request ->
  subscribed startTime
    (on "abort" OnAbort
       (on "error" (OnError startTime)
          (on "response" (OnResponse startTime) request))).
Proof.
  intros Hc.
  exists (default [] (_events request !! "response")),
         (default [] (_events request !! "error")),
         (default [] (_events request !! "abort")).
  do 3 (split; [by apply callerRequest_listeners|]).
  unfold on; simpl. by simplify_map_eq.
Qed.

Lemma subscribed_events (startTime : Z) (request : ClientRequest) (t : option Z) :
  subscribed startTime request ->
  subscribed startTime (mkRequest (_events request) t (socket request)).
Proof. done. Qed.

Lemma clearAgentTimeout_spec (request : ClientRequest) :
  _events (clearAgentTimeout request).1 = _events request /\
  socket (clearAgentTimeout request).1 = socket request /\
  feedbackCodes (clearAgentTimeout request).2 = [].
Proof. unfold clearAgentTimeout. by destruct (_agentTimeout request). Qed.

Lemma runListener_user (c : Config) (T : Transport) (now : Z) (event : RequestEvent)
    (fs : list Listener) (st : RateLimiter * ClientRequest * list Effect) :
  Forall isUserListener fs -> foldl (runListener c T now event) st fs = st.
Proof.
  intros Hfs. revert st. induction Hfs as [|f fs Hf _ IH]; intros st; [done|].
  simpl. destruct f; try done. destruct st as [[l r] e]. simpl. apply IH.
Qed.

Lemma feedbackCodes_app (e1 e2 : list Effect) :
  feedbackCodes (e1 ++ e2) = feedbackCodes e1 ++ feedbackCodes e2.
Proof. apply omap_app. Qed.

(** One event on a subscribed request: the feedback engine is called with
    the code of a response or of an error, and not for an abort. *)
Lemma emit_subscribed (c : Config) (T : Transport) (startTime now : Z)
    (limiter : RateLimiter) (request : ClientRequest) (eff : list Effect)
    (event : RequestEvent) :
  subscribed startTime request ->
  let after := emit c T (limiter, request, eff) (now, event) in
  subscribed startTime after.1.2 /\
  feedbackCodes after.2 = feedbackCodes eff ++ option_list (eventCode event).
Proof.
  intros Hs. pose proof Hs as (fr & fe & fa & Hr & He & Ha & Er & Ee & Ea).
  unfold emit. simpl.
  destruct (clearAgentTimeout_spec request) as (Hev & Hsock & Hfb).
  destruct event as [statusCode|code|]; simpl.
  - rewrite Er. simpl. rewrite foldl_app, (runListener_user _ _ _ _ fr) by exact Hr. simpl.
    destruct (clearAgentTimeout request) as [request' eff'] eqn:Hc. simpl in *.
    split.
    + unfold subscribed. rewrite Hev. by exists fr, fe, fa.
    + rewrite !feedbackCodes_app, Hfb. done.
  - rewrite Ee. simpl. rewrite foldl_app, (runListener_user _ _ _ _ fe) by exact He. simpl.
    destruct (clearAgentTimeout request) as [request' eff'] eqn:Hc. simpl in *.
    split.
    + unfold subscribed. rewrite Hev. by exists fr, fe, fa.
    + rewrite !feedbackCodes_app, Hfb. done.
  - rewrite Ea. simpl. rewrite foldl_app, (runListener_user _ _ _ _ fa) by exact Ha. simpl.
    destruct (clearAgentTimeout request) as [request' eff'] eqn:Hc. simpl in *.
    split.
    + unfold subscribed. rewrite Hev. by exists fr, fe, fa.
    + rewrite !feedbackCodes_app, Hfb. simpl. by destruct (socket request').
Qed.

Lemma foldl_emit_feedback (c : Config) (T : Transport) (startTime : Z)
    (events : list (Z * RequestEvent)) :
  forall limiter request eff,
    subscribed startTime request ->
    feedbackCodes (foldl (emit c T) (limiter, request, eff) events).2 =
      feedbackCodes eff ++ omap eventCode events.*2.
Proof.
  induction events as [|[now event] events IH]; intros limiter request eff Hs.
  - simpl. by rewrite app_nil_r.
  - cbn [foldl].
    destruct (emit_subscribed c T startTime now limiter request eff event Hs)
      as (Hs' & Hf).
    destruct (emit c T (limiter, request, eff) (now, event)) as [[l' r'] e'].
    simpl in Hs', Hf. rewrite IH by done. rewrite Hf, <- app_assoc. f_equal.
    simpl. by destruct (eventCode event).
Qed.

(** What [addRequest] does by the verdict of its admission check. *)
Lemma addRequest_cases (a : Agent) (T : Transport) (now : Z)
    (request : ClientRequest) (info : Info) :
  let name := getName T info in
  let flag := getFlag (cfg a) (match uri info with Some u => href u | None => "" end) in
  let check :=
    if negb (checkBeforeRequest (cfg a))
    then _canAcceptRequest a T now name flag false
    else (a, true) in
  let result := addRequest a T now request info in
  (check.2 = false ->
     result =
       (check.1, request,
        Abort :: (if hasListeners (_events request !! "error")
                  then [EmitError "429 Too Many Requests" (CNum 429)] else []))) /\
  (check.2 = true ->
     result.1.1 = (_getLimiter check.1 now name flag).1 /\
     (exists t, result.1.2 =
        mkRequest
          (_events (on "abort" OnAbort (on "error" (OnError now)
             (on "response" (OnResponse now) request))))
          t (socket request)) /\
     SuperAddRequest ∈ result.2 /\ Abort ∉ result.2).
Proof.
  intros name flag check result. subst result. unfold addRequest.
  fold name. fold flag. fold check. destruct check as [a1 ok]. simpl.
  split; intros ->; simpl; [done|].
  destruct (timeout info) as [ms|]; [destruct (ms =? 0)|]; simpl;
    (split; [done|]); (split; [by eexists|]);
    (split; [rewrite ?elem_of_cons; auto|]);
    rewrite ?not_elem_of_cons; repeat split; (discriminate || apply not_elem_of_nil).
Qed.

End AdapterFacts.

(** The on-submit path ([checkBeforeRequest = false]) when the admission
    check rejects: [addRequest] aborts the request first, does not hand it
    to the underlying transport and subscribes nothing to it, and it emits
    the error "429 Too Many Requests" with the code 429 (the integer) iff
    the entry of [error] in [request._events] is there and its [length] is
    not 0; no other error is emitted.  So the error is emitted for two or
    more subscribers, and for a lone subscriber iff it declares a
    parameter. *)
Lemma addRequest_rejected {L : LimiterClass} (a : Agent) (T : Transport)
    (now : Z) (request : ClientRequest) (info : Info) :
  let name := getName T info in
  let flag := getFlag (cfg a) (match uri info with Some u => href u | None => "" end) in
  let check := _canAcceptRequest a T now name flag false in
  let result := addRequest a T now request info in
  checkBeforeRequest (cfg a) = false ->
  check.2 = false ->
  result.1.1 = check.1 /\ result.1.2 = request /\
  head (snd result) = Some Abort /\
  (SuperAddRequest ∉ result.2) /\
  (EmitError "429 Too Many Requests" (CNum 429) ∈ result.2 <->
     exists fs, _events request !! "error" = Some fs /\ entryLength fs ≠ 0%nat) /\
  (forall f g fs, _events request !! "error" = Some (f :: g :: fs) ->
     EmitError "429 Too Many Requests" (CNum 429) ∈ result.2) /\
  (forall f, _events request !! "error" = Some [f] ->
     (EmitError "429 Too Many Requests" (CNum 429) ∈ result.2 <->
        functionLength f ≠ 0%nat)) /\
  (forall message code, EmitError message code ∈ result.2 ->
     message = "429 Too Many Requests" /\ code = CNum 429).
Proof.
  intros name flag check result Hmode Hrej. subst result.
  destruct (addRequest_cases a T now request info) as [Hcase _].
  fold name in Hcase. fold flag in Hcase. rewrite Hmode in Hcase. simpl in Hcase.
  fold check in Hcase. rewrite (Hcase Hrej). simpl.
  do 3 (split; [done|]).
  pose proof (hasListeners_spec (_events request !! "error")) as Hl.
  assert (Hemit : EmitError "429 Too Many Requests" (CNum 429) ∈
            Abort :: (if hasListeners (_events request !! "error")
                      then [EmitError "429 Too Many Requests" (CNum 429)] else []) <->
          exists fs, _events request !! "error" = Some fs /\ entryLength fs ≠ 0%nat).
  { rewrite <- Hl. destruct (hasListeners (_events request !! "error")).
    - rewrite !elem_of_cons. split; [done|]. intros _. auto.
    - rewrite !elem_of_cons, elem_of_nil. split; [|discriminate].
      intros [Hx|[]]. discriminate. }
  split; [|split; [exact Hemit|split; [|split]]].
  - destruct (hasListeners _); rewrite !not_elem_of_cons;
      repeat split; (discriminate || apply not_elem_of_nil).
  - intros f g fs Hfs. apply Hemit. by exists (f :: g :: fs).
  - intros f Hf. rewrite Hemit. split.
    + intros (fs & Hfs & Hlen). rewrite Hf in Hfs. by injection Hfs as <-.
    + intros Hlen. by exists [f].
  - intros message code. destruct (hasListeners _);
      rewrite !elem_of_cons, elem_of_nil.
    + intros [Hx|[Hx|[]]]; [discriminate|]. by injection Hx as -> ->.
    + intros [Hx|[]]. discriminate.
Qed.

Lemma addRequest_rejected_S3 :
  checkBeforeRequest (cfg agentS3) = false /\
  (@_canAcceptRequest specLimiter agentS3 transportS3 5 "h:80:" "" false).2 = false /\
  (@addRequest specLimiter agentS3 transportS3 5 watchedRequest plainInfo).2 =
    [Abort; EmitError "429 Too Many Requests" (CNum 429)] /\
  (@addRequest specLimiter agentS3 transportS3 5 pendingRequest plainInfo).2 = [Abort] /\
  SuperAddRequest ∉ (@addRequest specLimiter agentS3 transportS3 5 watchedRequest plainInfo).2.
Proof.
  do 4 (split; [reflexivity|]).
  by destruct (@addRequest_rejected specLimiter agentS3 transportS3 5 watchedRequest
                 plainInfo eq_refl eq_refl) as (_ & _ & _ & H & _).
Defined.

(** C7. The claim holds of the abort and of the hand-over, and fails by the
    test of line 160 on a request whose only subscriber to [error] declares
    no parameter: rejected on submit by the agent of scenario S3, the
    request is aborted and not handed on, but the entry of [error] is the
    subscriber itself, its [length] is 0, and no error is emitted although
    the request has a subscriber; the same request with a subscriber that
    declares one parameter is sent the 429. *)
Theorem rejected_lone_subscriber_gets_no_error :
  checkBeforeRequest (cfg agentS3) = false /\
  (@_canAcceptRequest specLimiter agentS3 transportS3 5 "h:80:" "" false).2 = false /\
  _events silentRequest !! "error" = Some [UserListener 0 0] /\
  (@addRequest specLimiter agentS3 transportS3 5 silentRequest plainInfo).2 = [Abort] /\
  _events watchedRequest !! "error" = Some [UserListener 0 1] /\
  (@addRequest specLimiter agentS3 transportS3 5 watchedRequest plainInfo).2 =
    [Abort; EmitError "429 Too Many Requests" (CNum 429)].
Proof. repeat split; reflexivity. Qed.

(** C2, as the code has it. For every request of a caller that [addRequest]
    hands to the underlying transport, every [response] event calls the
    feedback engine once with the status code, every [error] event calls it
    once with the error's code, and an [abort] event does not call it: over
    any sequence of events the codes reported are those of the responses and
    errors, in order.  So an abort alone reports nothing, and a timeout abort
    delivered as [abort] and then [error] reports once, the error's code. *)
Theorem forwarded_request_feedback {L : LimiterClass} (a : Agent) (T : Transport)
    (now : Z) (request : ClientRequest) (info : Info) :
  let result := addRequest a T now request info in
  callerRequest request ->
  SuperAddRequest ∈ result.2 ->
  forall c T' limiter,
    (forall events,
       feedbackCodes (deliver c T' limiter result.1.2 events).2 =
         omap eventCode events.*2) /\
    (forall t statusCode,
       feedbackCodes (deliver c T' limiter result.1.2 [(t, Response statusCode)]).2 =
         [CNum statusCode]) /\
    (forall t code,
       feedbackCodes (deliver c T' limiter result.1.2 [(t, Error code)]).2 = [code]) /\
    (forall t,
       feedbackCodes (deliver c T' limiter result.1.2 [(t, AbortEvent)]).2 = []) /\
    (forall t t' code,
       feedbackCodes
         (deliver c T' limiter result.1.2 [(t, AbortEvent); (t', Error code)]).2 =
         [code]).
Proof.
  intros result Hcaller Hfwd c T' limiter.
  assert (Hsub : subscribed now result.1.2).
  { subst result. destruct (addRequest_cases a T now request info) as [Hrej Hadm].
    cbv zeta in Hrej, Hadm.
    match type of Hrej with
    | (?check).2 = false -> _ => destruct check as [a1 [|]]
    end.
    - destruct (Hadm eq_refl) as (_ & (t & ->) & _).
      exact (on_subscribed request now Hcaller).
    - exfalso. rewrite (Hrej eq_refl) in Hfwd. cbn [snd] in Hfwd. revert Hfwd.
      destruct (hasListeners _); rewrite !elem_of_cons, elem_of_nil;
        intros Hin; repeat (destruct Hin as [Hin|Hin]; [discriminate|]); done. }
  assert (Hall : forall events,
    feedbackCodes (deliver c T' limiter result.1.2 events).2 = omap eventCode events.*2).
  { intros events. unfold deliver. by rewrite (foldl_emit_feedback c T' now events). }
  split; [done|]. repeat split; intros; by rewrite Hall.
Qed.

Lemma forwarded_request_feedback_timeout :
  forwardedS2.2 = [SetTimeout 500; SuperAddRequest] /\
  feedbackCodes
    (@deliver specLimiter (cfg agentS2) transportS2 capturedS2 forwardedS2.1.2
       [(500, AbortEvent); (501, Error (CStr "ECONNRESET"))]).2 =
    [CStr "ECONNRESET"].
Proof.
  split; [reflexivity|].
  destruct (@forwarded_request_feedback specLimiter agentS2 transportS2 0
              pendingRequest timedInfo) with (c := cfg agentS2) (T' := transportS2)
              (limiter := capturedS2) as (_ & _ & _ & _ & H).
  - intros event fs Hfs. vm_compute in Hfs. discriminate.
  - change (SuperAddRequest ∈ [SetTimeout 500; SuperAddRequest]).
    rewrite !elem_of_cons. auto.
  - apply H.
Defined.

(** C2 as it is stated fails: an [abort] event does not call the feedback
    engine at all, let alone with [undefined], so a forwarded request that
    only aborts is never reported; and a request whose response is followed
    by an error is reported twice. *)
Lemma abort_is_not_reported :
  forwardedS2.2 = [SetTimeout 500; SuperAddRequest] /\
  feedbackCodes
    (@deliver specLimiter (cfg agentS2) transportS2 capturedS2 forwardedS2.1.2
       [(500, AbortEvent)]).2 = [] /\
  feedbackCodes
    (@deliver specLimiter (cfg agentS2) transportS2 capturedS2 forwardedS2.1.2
       [(500, AbortEvent)]).2 ≠ [CUndef] /\
  feedbackCodes
    (@deliver specLimiter (cfg agentS2) transportS2 capturedS2 forwardedS2.1.2
       [(100, Response 200); (120, Error (CStr "ECONNRESET"))]).2 =
    [CNum 200; CStr "ECONNRESET"].
Proof. repeat split; (reflexivity || (vm_compute; discriminate)). Qed.

(** ** The pre-check *)

(** C10. In pre-check mode [canAcceptRequest(url)] runs the admission check
    under the endpoint name [hostname + ':' + (port || 80) + ':'] of the
    parsed URL, with the flag of the URL and [withFailed = true]; the name
    does not read the scheme, so a URL without a port, https included, is
    checked under [hostname:80:]. *)
Theorem canAcceptRequest_key {L : LimiterClass} (parse : string -> UrlObject)
    (a : Agent) (T : Transport) (now : Z) (url : string) :
  let u := parse url in
  let portOr80 :=
    match port u with
    | Some p => if decide (p = "") then "80" else p
    | None => "80"
    end in
  let key := default "null" (hostname u) +:+ ":" +:+ portOr80 +:+ ":" in
  checkBeforeRequest (cfg a) = true ->
  canAcceptRequest parse a T now url =
    _canAcceptRequest a T now key (getFlag (cfg a) url) true /\
  (forall scheme, endpointName (mkUrl scheme (hostname u) (port u)) = key) /\
  (port u = None -> key = default "null" (hostname u) +:+ ":80:").
Proof.
  intros u portOr80 key Hmode. split; [|split].
  - unfold canAcceptRequest. by rewrite Hmode.
  - done.
  - intros Hp. subst key portOr80. by rewrite Hp.
Qed.

Lemma canAcceptRequest_key_https :
  checkBeforeRequest (cfg agentPrecheck) = true /\
  protocol (parseExample "https://example.com/a") = Some "https:" /\
  @canAcceptRequest specLimiter parseExample agentPrecheck transportIdle 5
    "https://example.com/a" =
  @_canAcceptRequest specLimiter agentPrecheck transportIdle 5 "example.com:80:" "" true /\
  endpointName (parseExample "http://example.com:8080/a") = "example.com:8080:".
Proof.
  do 2 (split; [reflexivity|]). split; [|reflexivity].
  destruct (@canAcceptRequest_key specLimiter parseExample agentPrecheck transportIdle 5
              "https://example.com/a" eq_refl) as (H & _).
  exact H.
Defined.

(** ** Scenarios *)

(** The steps of the default koefficients at some limits. *)
Lemma floorMul_defaults :
  JS.floorMul 100 RATE_LOWER_KOEF = JS.Int 20 /\
  JS.floorMul 100 RATE_RAISE_KOEF = JS.Int 2 /\
  JS.floorMul 1 RATE_RAISE_KOEF = JS.Int 0 /\
  JS.floorMul MAX_RATE RATE_LOWER_KOEF = JS.Int 200000.
Proof. repeat split; reflexivity. Qed.

(** Scenario S2 run outcome by outcome on the limiter that the agent
    created at instant 0: the interval ends with the limit at 80. *)
Example scenario_S2_run :
  limit capturedS2 = 100 /\
  limit (foldl (fun l '(t, code) =>
                  @_changeRate specLimiter (cfg agentS2) transportS2 t l code)
           capturedS2 outcomesS2) = 80.
Proof. split; reflexivity. Qed.

(** * Further properties *)

(** ** The rate recomputation *)

(** The step is at least one, also for a koefficient that is negative or
    makes the product overflow: the limit that is handed to [setLimit] is
    the old one moved by some [step >= 1] in the direction of [diff], and
    then clamped. *)
Lemma nextLimit_step (c : Config) (rate diff lim : Z) :
  diff ≠ 0 ->
  exists step, 1 <= step /\
    nextLimit c rate diff lim =
      Z.max MIN_RATE (Z.min rate (lim + Z.sgn diff * step)).
Proof.
  intros Hd. unfold nextLimit.
  destruct (JS.floorMul lim _) as [z|[|]]; simpl.
  - exists (Z.max z 1). split; [lia|]. unfold MIN_RATE. compare_cases; lia.
  - exists 1. split; [lia|]. unfold MIN_RATE. compare_cases; lia.
  - destruct (Z.ltb_spec diff 0).
    + exists (Z.max 1 (lim - MIN_RATE)). unfold MIN_RATE. split; [lia|].
      destruct diff; simpl; lia.
    + exists (Z.max 1 (rate - lim)). unfold MIN_RATE. split; [lia|].
      destruct diff; simpl; compare_cases; lia.
Qed.

Lemma changeRate_limit_boundary {L : LimiterClass} (LL : LimiterLaws L)
    (c : Config) (T : Transport) (now : Z) (limiter : RateLimiter) (code : Code) :
  let counted := tally (getRateDirection c code T limiter) limiter in
  let target := effectiveRate c (name limiter) (flag limiter) in
  lastRateTime limiter + rateInterval c <= now ->
  tallyDiff c counted ≠ 0 ->
  target <= MAX_RATE ->
  limit (_changeRate c T now limiter code) =
    nextLimit c target (tallyDiff c counted) (limit limiter).
Proof.
  intros counted target Hb Hd Ht. rewrite changeRate_boundary by done.
  fold counted. case_decide; [done|]. simpl. apply setLimit_installs.
  pose proof (nextLimit_bounds c target (tallyDiff c counted) (limit limiter)).
  unfold MIN_RATE, MAX_RATE in *. lia.
Qed.

(** X1. The working limit stays between [MIN_RATE] and the target over
    every report of an outcome, at a boundary or not, for a limiter class
    that keeps its contract and a target of at most [MAX_RATE]. *)
Theorem changeRate_keeps_limit_in_range {L : LimiterClass} (LL : LimiterLaws L)
    (c : Config) (T : Transport) (now : Z) (limiter : RateLimiter) (code : Code) :
  let target := effectiveRate c (name limiter) (flag limiter) in
  MIN_RATE <= limit limiter <= target ->
  target <= MAX_RATE ->
  MIN_RATE <= limit (_changeRate c T now limiter code) <= target.
Proof.
  intros target Hl Ht.
  destruct (tally_frame (getRateDirection c code T limiter) limiter) as (Hlim & _).
  destruct (Z.le_gt_cases (lastRateTime limiter + rateInterval c) now) as [Hb|Hb].
  - rewrite changeRate_boundary by done. case_decide; simpl.
    + by rewrite Hlim.
    + rewrite setLimit_installs.
      * pose proof (nextLimit_bounds c target
          (tallyDiff c (tally (getRateDirection c code T limiter) limiter))
          (limit limiter)). fold target. lia.
      * pose proof (nextLimit_bounds c target
          (tallyDiff c (tally (getRateDirection c code T limiter) limiter))
          (limit limiter)). fold target. unfold MIN_RATE, MAX_RATE in *. lia.
  - rewrite changeRate_inside by lia. by rewrite Hlim.
Qed.

Lemma changeRate_keeps_limit_in_range_S2 :
  MIN_RATE <= limit limiterS2 <= effectiveRate (cfg agentS2) "h:80:" "" /\
  effectiveRate (cfg agentS2) "h:80:" "" <= MAX_RATE /\
  MIN_RATE <=
    limit (@_changeRate specLimiter (cfg agentS2) transportS2 1000 limiterS2 (CNum 500))
    <= 100.
Proof.
  split; [vm_compute; split; discriminate|]. split; [vm_compute; discriminate|].
  apply (@changeRate_keeps_limit_in_range specLimiter specLimiter_laws (cfg agentS2)
           transportS2 1000 limiterS2 (CNum 500)); vm_compute; try split; discriminate.
Defined.

(** X2. At a boundary with more weighted successes than failures
    ([diff > 0]) the working limit rises by at least one while it is below
    the target and never passes it; a limit at or above the target ends at
    the target. *)
Theorem changeRate_raises {L : LimiterClass} (LL : LimiterLaws L)
    (c : Config) (T : Transport) (now : Z) (limiter : RateLimiter) (code : Code) :
  let counted := tally (getRateDirection c code T limiter) limiter in
  let target := effectiveRate c (name limiter) (flag limiter) in
  let after := _changeRate c T now limiter code in
  lastRateTime limiter + rateInterval c <= now ->
  0 < tallyDiff c counted ->
  MIN_RATE <= target <= MAX_RATE ->
  (limit limiter < target -> limit limiter < limit after <= target) /\
  (target <= limit limiter -> limit after = target).
Proof.
  intros counted target after Hb Hd Ht. subst after counted target.
  rewrite changeRate_limit_boundary by (done || lia).
  destruct (nextLimit_step c (effectiveRate c (name limiter) (flag limiter))
              (tallyDiff c (tally (getRateDirection c code T limiter) limiter))
              (limit limiter)) as (step & Hs & ->); [lia|].
  rewrite Z.sgn_pos by done. unfold MIN_RATE in *. lia.
Qed.

Lemma changeRate_raises_example :
  lastRateTime limiterRaising + rateInterval (cfg agentS2) <= 1000 /\
  0 < tallyDiff (cfg agentS2)
        (tally (getRateDirection (cfg agentS2) (CNum 200) transportS2 limiterRaising)
           limiterRaising) /\
  50 < limit (@_changeRate specLimiter (cfg agentS2) transportS2 1000 limiterRaising
                (CNum 200)) <= 100.
Proof.
  split; [vm_compute; discriminate|]. split; [reflexivity|].
  apply (@changeRate_raises specLimiter specLimiter_laws (cfg agentS2) transportS2 1000
           limiterRaising (CNum 200)); vm_compute; try split; (reflexivity || discriminate).
Defined.

(** X3. At a boundary with [diff < 0] the working limit falls by at least
    one while it is above [MIN_RATE] and never goes below it; a limit at or
    below [MIN_RATE] ends at [MIN_RATE]. *)
Theorem changeRate_lowers {L : LimiterClass} (LL : LimiterLaws L)
    (c : Config) (T : Transport) (now : Z) (limiter : RateLimiter) (code : Code) :
  let counted := tally (getRateDirection c code T limiter) limiter in
  let target := effectiveRate c (name limiter) (flag limiter) in
  let after := _changeRate c T now limiter code in
  lastRateTime limiter + rateInterval c <= now ->
  tallyDiff c counted < 0 ->
  target <= MAX_RATE ->
  (MIN_RATE < limit limiter -> MIN_RATE <= limit after < limit limiter) /\
  (limit limiter <= MIN_RATE -> limit after = MIN_RATE).
Proof.
  intros counted target after Hb Hd Ht. subst after counted target.
  rewrite changeRate_limit_boundary by (done || lia).
  destruct (nextLimit_step c (effectiveRate c (name limiter) (flag limiter))
              (tallyDiff c (tally (getRateDirection c code T limiter) limiter))
              (limit limiter)) as (step & Hs & ->); [lia|].
  rewrite Z.sgn_neg by done. unfold MIN_RATE in *. lia.
Qed.

Lemma changeRate_lowers_example :
  lastRateTime limiterLowering + rateInterval (cfg agentS2) <= 1000 /\
  tallyDiff (cfg agentS2)
    (tally (getRateDirection (cfg agentS2) (CNum 500) transportS2 limiterLowering)
       limiterLowering) < 0 /\
  MIN_RATE <=
    limit (@_changeRate specLimiter (cfg agentS2) transportS2 1000 limiterLowering
             (CNum 500)) < 50.
Proof.
  split; [vm_compute; discriminate|]. split; [reflexivity|].
  apply (@changeRate_lowers specLimiter specLimiter_laws (cfg agentS2) transportS2 1000
           limiterLowering (CNum 500)); vm_compute; try split; (reflexivity || discriminate).
Defined.

(** X4. Between two boundaries a report of an outcome only counts it: the
    limit, the target, the instant of the last recomputation and the
    counters of the interval stay as they are; [success] grows by one for
    the direction 1, [failed] by one for the direction -1, and for any other
    direction the limiter is not changed at all. *)
Theorem changeRate_inside_interval {L : LimiterClass} (c : Config) (T : Transport)
    (now : Z) (limiter : RateLimiter) (code : Code) :
  let dir := getRateDirection c code T limiter in
  let after := _changeRate c T now limiter code in
  now < lastRateTime limiter + rateInterval c ->
  limit after = limit limiter /\
  lastRate after = lastRate limiter /\
  lastRateTime after = lastRateTime limiter /\
  tokensThisInterval after = tokensThisInterval limiter /\
  incomingThisInterval after = incomingThisInterval limiter /\
  success after = (success limiter + (if (dir =? 1)%Z then 1 else 0))%N /\
  failed after = (failed limiter + (if (dir =? -1)%Z then 1 else 0))%N /\
  (dir ≠ 1 -> dir ≠ -1 -> after = limiter).
Proof.
  intros dir after Hin. subst after. rewrite changeRate_inside by done.
  fold dir. unfold tally.
  destruct (Z.eqb_spec dir 1) as [->|H1]; simpl.
  - repeat split; (done || lia).
  - destruct (Z.eqb_spec dir (-1)) as [->|H2]; simpl; repeat split; (done || lia).
Qed.

Lemma changeRate_inside_interval_S2 :
  500 < lastRateTime limiterS2 + rateInterval (cfg agentS2) /\
  limit (@_changeRate specLimiter (cfg agentS2) transportS2 500 limiterS2
           (CStr "ETIMEDOUT")) = 100 /\
  failed (@_changeRate specLimiter (cfg agentS2) transportS2 500 limiterS2
            (CStr "ETIMEDOUT")) = 5%N.
Proof.
  split; [reflexivity|].
  destruct (@changeRate_inside_interval specLimiter (cfg agentS2) transportS2 500
              limiterS2 (CStr "ETIMEDOUT")) as (H1 & _ & _ & _ & _ & _ & H2 & _);
    [reflexivity|].
  split; [exact H1|exact H2].
Defined.

Lemma codeDirection_spec (code : Code) :
  let dir :=
    match code with
    | CNum n => if (200 <=? n) && (n <? 400) then 1 else -1
    | _ => -1
    end in
  (dir = 1 \/ dir = -1) /\
  (dir = 1 <-> exists n, code = CNum n /\ 200 <= n < 400).
Proof.
  destruct code as [n| |]; simpl.
  - destruct (Z.leb_spec 200 n), (Z.ltb_spec n 400); simpl.
    + split; [by left|]. split; [intros _; exists n; split; [done|lia]|done].
    + split; [by right|]. split; [done|]. intros (n' & [= <-] & ?). lia.
    + split; [by right|]. split; [done|]. intros (n' & [= <-] & ?). lia.
    + split; [by right|]. split; [done|]. intros (n' & [= <-] & ?). lia.
  - split; [by right|]. split; [done|]. by intros (n & ? & _).
  - split; [by right|]. split; [done|]. by intros (n & ? & _).
Qed.

(** X5. The default direction function answers 1 or -1 and never 0.  It
    answers 1 for every code, errors included, when the endpoint has no
    socket list or fewer sockets than [maxSockets]; with the sockets used up
    it answers -1 for every code, successes included, when more than 1000
    requests are pending, and otherwise 1 exactly for a numeric code from
    200 to 399. *)
Theorem defaultRateDirection_cases (code : Code) (T : Transport)
    (limiter : RateLimiter) :
  let spare :=
    match sockets T !! name limiter with
    | None => True
    | Some socks =>
        match maxSockets T with
        | JS.Int m => len socks < m
        | JS.Inf negative => negative = false
        end
    end in
  let crowded :=
    exists pending, requests T !! name limiter = Some pending /\ 1000 < len pending in
  let dir := defaultRateDirection code T limiter in
  (dir = 1 \/ dir = -1) /\
  (spare -> dir = 1) /\
  (¬ spare -> crowded -> dir = -1) /\
  (¬ spare -> ¬ crowded ->
     (dir = 1 <-> exists n, code = CNum n /\ 200 <= n < 400)).
Proof.
  intros spare crowded dir. subst spare crowded dir. unfold defaultRateDirection.
  destruct (codeDirection_spec code) as [Hpm Hcode]. cbv zeta in Hpm, Hcode.
  destruct (sockets T !! name limiter) as [socks|]; simpl;
    [|split; [by left|]; split; [done|]; split; intros []; done].
  assert (Hcap : (match maxSockets T with
                  | JS.Int m => 0 <? m - len socks
                  | JS.Inf neg => negb neg
                  end) = true <->
                 match maxSockets T with
                 | JS.Int m => len socks < m
                 | JS.Inf negative => negative = false
                 end).
  { destruct (maxSockets T) as [m|[|]]; simpl; [rewrite Z.ltb_lt; lia|done|done]. }
  destruct (match maxSockets T with
            | JS.Int m => 0 <? m - len socks
            | JS.Inf neg => negb neg
            end).
  { split; [by left|]. split; [done|]. split; intros Hn; exfalso; by apply Hn, Hcap. }
  destruct (requests T !! name limiter) as [pending|]; simpl.
  - destruct (Z.ltb_spec 1000 (len pending)) as [Hp|Hp].
    + split; [by right|]. split; [intros Hs; by apply Hcap in Hs|]. split; [done|].
      intros _ Hc. exfalso. apply Hc. by exists pending.
    + split; [done|]. split; [intros Hs; by apply Hcap in Hs|]. split; [|done].
      intros _ (pending' & [= <-] & Hp'). lia.
  - split; [done|]. split; [intros Hs; by apply Hcap in Hs|]. split; [|done].
    by intros _ (pending' & ? & _).
Qed.

(** X6. With the default direction function every outcome is counted: a
    report between two boundaries adds exactly one to [success + failed]. *)
Theorem default_direction_counts_every_outcome {L : LimiterClass} (c : Config)
    (T : Transport) (now : Z) (limiter : RateLimiter) (code : Code) :
  let after := _changeRate c T now limiter code in
  getRateDirection c = defaultRateDirection ->
  now < lastRateTime limiter + rateInterval c ->
  (success after + failed after = success limiter + failed limiter + 1)%N.
Proof.
  intros after Hdir Hin. subst after. rewrite changeRate_inside by done.
  rewrite Hdir. unfold tally.
  assert (Hd : defaultRateDirection code T limiter = 1 \/
               defaultRateDirection code T limiter = -1).
  { unfold defaultRateDirection. repeat case_match; auto. }
  destruct Hd as [->| ->]; simpl; lia.
Qed.

Lemma default_direction_counts_every_outcome_S2 :
  getRateDirection (cfg agentS2) = defaultRateDirection /\
  500 < lastRateTime limiterS2 + rateInterval (cfg agentS2) /\
  (success (@_changeRate specLimiter (cfg agentS2) transportS2 500 limiterS2 CUndef) +
   failed (@_changeRate specLimiter (cfg agentS2) transportS2 500 limiterS2 CUndef)
   = 15)%N.
Proof.
  do 2 (split; [reflexivity|]).
  exact (@default_direction_counts_every_outcome specLimiter (cfg agentS2) transportS2
           500 limiterS2 CUndef eq_refl eq_refl).
Defined.

(** X7. A step that overflows the doubles never reaches the limiter as an
    infinity: at a boundary where [limit * koef] is [Infinity], the new
    limit is the target when the limit is raised and [MIN_RATE] when it is
    lowered. *)
Theorem changeRate_overflowing_step {L : LimiterClass} (LL : LimiterLaws L)
    (c : Config) (T : Transport) (now : Z) (limiter : RateLimiter) (code : Code) :
  let counted := tally (getRateDirection c code T limiter) limiter in
  let diff := tallyDiff c counted in
  let target := effectiveRate c (name limiter) (flag limiter) in
  let koef := if diff <? 0 then rateLowerKoef c else rateRaiseKoef c in
  lastRateTime limiter + rateInterval c <= now ->
  diff ≠ 0 ->
  MIN_RATE <= target <= MAX_RATE ->
  JS.floorMul (limit limiter) koef = JS.Inf false ->
  limit (_changeRate c T now limiter code) = if diff <? 0 then MIN_RATE else target.
Proof.
  intros counted diff target koef Hb Hd Ht Hinf. subst counted diff target koef.
  rewrite changeRate_limit_boundary by (done || lia).
  unfold nextLimit. rewrite Hinf. simpl.
  destruct (_ <? 0); simpl; [done|]. unfold MIN_RATE in *. compare_cases; lia.
Qed.

Lemma changeRate_overflowing_step_huge :
  JS.floorMul (limit limiterRaising) (rateRaiseKoef (cfg agentHuge)) = JS.Inf false /\
  limit (@_changeRate specLimiter (cfg agentHuge) transportS2 1000 limiterRaising
           (CNum 200)) = 100.
Proof.
  split; [reflexivity|].
  apply (@changeRate_overflowing_step specLimiter specLimiter_laws (cfg agentHuge)
           transportS2 1000 limiterRaising (CNum 200));
    vm_compute; try split; (reflexivity || discriminate).
Defined.

(** ** The constructor *)

Lemma numOr_spec (o : option Z) (d : Z) :
  (o = None \/ o = Some 0 -> numOr o d = d) /\
  (forall x, o = Some x -> x ≠ 0 -> numOr o d = x) /\
  (d ≠ 0 -> numOr o d ≠ 0).
Proof.
  unfold numOr. split; [|split].
  - by intros [->| ->].
  - intros x -> Hx. by apply orElse_nonzero.
  - intros Hd. destruct o; [by apply orElse_truthy|done].
Qed.

(** X8. Whatever the options, the agent starts with an empty registry and
    with a rate, an interval, a weight, a queue cutoff and a buffer cutoff
    that are not zero: a numeric option that is left out or is 0 takes its
    default (1000000, 1000, 18, 3000, 50), any other value is kept; and
    without a [getRate] option the target of every endpoint is the agent's
    rate. *)
Theorem constructor_defaults (options : Options) (now : Z) :
  let a := constructor options now in
  let c := cfg a in
  rateLimiters a = ∅ /\ lastCleanupTime a = now /\
  (rate c ≠ 0 /\ rateInterval c ≠ 0 /\ rateLowerWeight c ≠ 0 /\
   maxPending c ≠ 0 /\ maxBuffer c ≠ 0) /\
  ((o_rate options = None \/ o_rate options = Some 0 -> rate c = 1000000) /\
   (o_rateInterval options = None \/ o_rateInterval options = Some 0 ->
      rateInterval c = 1000) /\
   (o_rateLowerWeight options = None \/ o_rateLowerWeight options = Some 0 ->
      rateLowerWeight c = 18) /\
   (o_maxPending options = None \/ o_maxPending options = Some 0 ->
      maxPending c = 3000) /\
   (o_maxBuffer options = None \/ o_maxBuffer options = Some 0 -> maxBuffer c = 50)) /\
  ((forall x, o_rate options = Some x -> x ≠ 0 -> rate c = x) /\
   (forall x, o_rateInterval options = Some x -> x ≠ 0 -> rateInterval c = x) /\
   (forall x, o_rateLowerWeight options = Some x -> x ≠ 0 -> rateLowerWeight c = x) /\
   (forall x, o_maxPending options = Some x -> x ≠ 0 -> maxPending c = x) /\
   (forall x, o_maxBuffer options = Some x -> x ≠ 0 -> maxBuffer c = x)) /\
  (o_getRate options = None ->
     forall name flag, getRate c name flag = rate c /\ effectiveRate c name flag = rate c).
Proof.
  intros a c. subst a c. simpl.
  split; [done|]. split; [done|]. split; [|split; [|split]].
  - repeat split; by apply numOr_spec.
  - repeat split; apply numOr_spec.
  - repeat split; apply numOr_spec.
  - intros -> name flag. simpl. split; [done|].
    unfold effectiveRate. simpl. apply orElse_nonzero. by apply numOr_spec.
Qed.

(** ** The registry *)

Lemma getLimiter_lastRate {L : LimiterClass} (LL : LimiterLaws L)
    (a : Agent) (now : Z) (name flag : string) :
  lastRate (_getLimiter a now name flag).2 = effectiveRate (cfg a) name flag.
Proof.
  unfold _getLimiter. simpl. unfold retarget.
  destruct (rateLimiters a !! (name +:+ flag)) as [existing|].
  - case_decide as Hd.
    + by destruct (setLimit_agent_fields
        (Z.min (limit existing) (effectiveRate (cfg a) name flag))
        (set_lastRate (effectiveRate (cfg a) name flag) existing)) as (_ & _ & -> & _).
    + destruct (decide (lastRate existing = effectiveRate (cfg a) name flag));
        [done|contradiction].
  - by case_decide.
Qed.

(** X9. Fetching a limiter twice is fetching it once: a second
    [_getLimiter] for the same endpoint, at any later instant, returns the
    same limiter and leaves the agent as the first fetch left it (the limit
    is not clamped again and no second limiter is made). *)
Theorem getLimiter_twice {L : LimiterClass} (LL : LimiterLaws L)
    (a : Agent) (now later : Z) (name flag : string) :
  let first := _getLimiter a now name flag in
  _getLimiter first.1 later name flag = first.
Proof.
  intros first. pose proof (getLimiter_lastRate LL a now name flag) as Hrate.
  subst first. unfold _getLimiter in *. cbn [fst snd] in *.
  unfold set_rateLimiters. cbn [cfg rateLimiters lastCleanupTime].
  set (rate := effectiveRate (cfg a) name flag) in *.
  set (fetched := retarget rate _) in *.
  rewrite lookup_insert_eq, insert_insert_eq.
  assert (Hsame : retarget rate fetched = fetched).
  { unfold retarget. by rewrite decide_False by (intros Hn; by apply Hn). }
  by rewrite Hsame.
Qed.

Lemma getLimiter_twice_S6 :
  @_getLimiter specLimiter (@_getLimiter specLimiter agentS6 5 "h:80:" "").1 9 "h:80:" "" =
  @_getLimiter specLimiter agentS6 5 "h:80:" "".
Proof.
  exact (@getLimiter_twice specLimiter specLimiter_laws agentS6 5 9 "h:80:" "").
Defined.

(** X10. The key of the registry is the plain concatenation of name and
    flag, so two endpoints whose names and flags concatenate to the same
    string share one limiter: the second endpoint is handed the limiter of
    the first, retargeted to its own rate, and no limiter is added. *)
Theorem getLimiter_shared_key {L : LimiterClass} (a : Agent) (now : Z)
    (name1 flag1 name2 flag2 : string) (existing : RateLimiter) :
  let fetched := _getLimiter a now name2 flag2 in
  rateLimiters a !! (name1 +:+ flag1) = Some existing ->
  name1 +:+ flag1 = name2 +:+ flag2 ->
  fetched.2 = retarget (effectiveRate (cfg a) name2 flag2) existing /\
  (lastRate existing = effectiveRate (cfg a) name2 flag2 -> fetched.2 = existing) /\
  dom (rateLimiters fetched.1) = dom (rateLimiters a).
Proof.
  intros fetched He Hk. subst fetched. rewrite Hk in He.
  rewrite (getLimiter_existing _ _ _ _ _ He). split; [done|]. split.
  - intros Hr. unfold retarget. by rewrite decide_False by (intros Hn; by apply Hn).
  - unfold _getLimiter. cbn [fst rateLimiters set_rateLimiters].
    rewrite dom_insert_L. apply elem_of_dom_2 in He.
    apply subseteq_union_1_L. by apply singleton_subseteq_l.
Qed.

Lemma getLimiter_shared_key_example :
  rateLimiters agentShared !! ("h:80:" +:+ "x") =
    Some (mkLimiter 100 1000 0 0 0 0 0 0 MAX_RATE 0 "h:80:" "x") /\
  "h:80:" +:+ "x" = "h:80:x" +:+ "" /\
  name (@_getLimiter specLimiter agentShared 5 "h:80:x" "").2 = "h:80:" /\
  flag (@_getLimiter specLimiter agentShared 5 "h:80:x" "").2 = "x".
Proof.
  do 2 (split; [reflexivity|]).
  destruct (@getLimiter_shared_key specLimiter agentShared 5 "h:80:" "x" "h:80:x" ""
              (mkLimiter 100 1000 0 0 0 0 0 0 MAX_RATE 0 "h:80:" "x") eq_refl eq_refl)
    as (_ & H & _).
  rewrite H; [split; reflexivity|reflexivity].
Defined.

(** ** The admission check, once more *)

(** X11. An admission check touches one limiter: it leaves the options of
    the agent and the instant of the last cleanup as they are, adds at most
    the key of its own endpoint to the registry, and leaves the limiter of
    every other key as it is, whether it admits or rejects. *)
Theorem canAccept_touches_one_limiter {L : LimiterClass} (a : Agent) (T : Transport)
    (now : Z) (name flag : string) (withFailed : bool) :
  let result := _canAcceptRequest a T now name flag withFailed in
  cfg result.1 = cfg a /\
  lastCleanupTime result.1 = lastCleanupTime a /\
  dom (rateLimiters result.1) = {[name +:+ flag]} ∪ dom (rateLimiters a) /\
  (forall key, key ≠ name +:+ flag ->
     rateLimiters result.1 !! key = rateLimiters a !! key).
Proof.
  intros result. subst result. rewrite canAcceptRequest_rules.
  destruct (queueFull _ _ _ || bufferPressure _ _ _ _);
    unfold store, _getLimiter, set_rateLimiters;
    cbn [fst snd cfg rateLimiters lastCleanupTime];
    rewrite insert_insert_eq, dom_insert_L;
    (do 3 (split; [done|])); intros key Hk; by rewrite lookup_insert_ne.
Qed.

(** X12. A request is admitted only past all three rules: when the check
    answers [true], the pending queue of the endpoint is shorter than
    [maxPending], the buffer gate has not fired, [accept(1)] has answered
    [true], and the limiter in the registry is the one [accept] left. *)
Theorem canAccept_admitted {L : LimiterClass} (a : Agent) (T : Transport)
    (now : Z) (name flag : string) (withFailed : bool) :
  let fetched := _getLimiter a now name flag in
  let result := _canAcceptRequest a T now name flag withFailed in
  result.2 = true ->
  (forall pending, requests T !! name = Some pending ->
     len pending < maxPending (cfg a)) /\
  bufferPressure (cfg a) T name fetched.2 = false /\
  (accept now 1%N fetched.2).1 = true /\
  rateLimiters result.1 !! (name +:+ flag) = Some (accept now 1%N fetched.2).2.
Proof.
  intros fetched result. subst result. rewrite canAcceptRequest_rules. fold fetched.
  destruct (queueFull (cfg a) T name) eqn:Hq; [done|].
  destruct (bufferPressure (cfg a) T name fetched.2) eqn:Hb; [done|]. simpl.
  intros Hok. split; [|split; [done|split; [done|]]].
  - intros pending Hp. unfold queueFull in Hq. rewrite Hp in Hq. simpl in Hq.
    by apply Z.leb_gt in Hq.
  - apply lookup_insert_eq.
Qed.

Lemma canAccept_admitted_S4 :
  (@_canAcceptRequest specLimiter (agentS4 200) transportS4 5 "h:80:" "" false).2 = true /\
  bufferPressure (cfg (agentS4 200)) transportS4 "h:80:"
    (@_getLimiter specLimiter (agentS4 200) 5 "h:80:" "").2 = false.
Proof.
  split; [reflexivity|].
  by destruct (@canAccept_admitted specLimiter (agentS4 200) transportS4 5 "h:80:" ""
                 false eq_refl) as (_ & H & _).
Defined.

(** ** The transport adapter, once more *)

Section AdapterSteps.

Context {L : LimiterClass}.

(** What [addRequest] leaves of a request that it hands on. *)
Lemma addRequest_forwarded (a : Agent) (T : Transport) (now : Z)
    (request : ClientRequest) (info : Info) :
  let result := addRequest a T now request info in
  let armed :=
    match timeout info with
    | Some ms => negb (ms =? 0)
    | None => false
    end in
  SuperAddRequest ∈ result.2 ->
  result.1.2 =
    mkRequest
      (_events (on "abort" OnAbort (on "error" (OnError now)
         (on "response" (OnResponse now) request))))
      (if armed then timeout info else _agentTimeout request)
      (socket request) /\
  result.2 =
    if armed then [SetTimeout (default 0 (timeout info)); SuperAddRequest]
    else [SuperAddRequest].
Proof.
  intros result armed. subst result armed. unfold addRequest.
  destruct (if negb (checkBeforeRequest (cfg a)) then _ else _) as [a1 [|]];
    cbn [negb].
  - destruct (_getLimiter a1 now _ _) as [a2 limiter].
    destruct (timeout info) as [ms|]; [destruct (ms =? 0)|]; simpl; by intros _.
  - simpl. destruct (hasListeners _); rewrite !elem_of_cons, elem_of_nil;
      intros Hin; repeat (destruct Hin as [Hin|Hin]; [discriminate|]); done.
Qed.

(** One event on a request that carries the three closures. *)
Lemma emit_step (c : Config) (T : Transport) (startTime now : Z)
    (limiter : RateLimiter) (request : ClientRequest) (eff : list Effect)
    (event : RequestEvent) :
  subscribed startTime request ->
  emit c T (limiter, request, eff) (now, event) =
    (match event with
     | Response statusCode =>
         _changeRate c T now (addTime (now - startTime) limiter) (CNum statusCode)
     | Error code => _changeRate c T now (addTime (now - startTime) limiter) code
     | AbortEvent => limiter
     end,
     mkRequest (_events request) None (socket request),
     eff ++ match _agentTimeout request with Some _ => [ClearTimeout] | None => [] end ++
       match event with
       | Response statusCode => [Feedback (CNum statusCode)]
       | Error code => [Feedback code]
       | AbortEvent => match socket request with Some _ => [DestroySocket] | None => [] end
       end).
Proof.
  intros (fr & fe & fa & Hr & He & Ha & Er & Ee & Ea).
  assert (Hclear : clearAgentTimeout request =
    (mkRequest (_events request) None (socket request),
     match _agentTimeout request with Some _ => [ClearTimeout] | None => [] end)).
  { unfold clearAgentTimeout. destruct request as [ev [t|] s]; done. }
  unfold emit. simpl.
  destruct event as [statusCode|code|]; simpl.
  - rewrite Er. simpl. rewrite foldl_app, (runListener_user _ _ _ _ fr) by exact Hr.
    simpl. by rewrite Hclear.
  - rewrite Ee. simpl. rewrite foldl_app, (runListener_user _ _ _ _ fe) by exact He.
    simpl. by rewrite Hclear.
  - rewrite Ea. simpl. rewrite foldl_app, (runListener_user _ _ _ _ fa) by exact Ha.
    simpl. by rewrite Hclear.
Qed.

Lemma forwarded_subscribed (a : Agent) (T : Transport) (now : Z)
    (request : ClientRequest) (info : Info) (t : option Z) (s : option Socket) :
  callerRequest request ->
  SuperAddRequest ∈ (addRequest a T now request info).2 ->
  subscribed now (mkRequest (_events (addRequest a T now request info).1.2) t s).
Proof.
  intros Hc Hf. destruct (addRequest_forwarded a T now request info Hf) as [-> _].
  exact (on_subscribed request now Hc).
Qed.

(** The events of a request that carries no closure of the agent. *)
Lemma deliver_caller (c : Config) (T : Transport) (limiter : RateLimiter)
    (request : ClientRequest) (events : list (Z * RequestEvent)) :
  callerRequest request ->
  deliver c T limiter request events = (limiter, request, []).
Proof.
  intros Hc. unfold deliver. induction events as [|[now event] events IH]; [done|].
  cbn [foldl]. unfold emit at 2. cbn [fst snd].
  rewrite runListener_user by by apply callerRequest_listeners. exact IH.
Qed.

(** The timer of a subscribed request is cancelled by the first event and
    only by it. *)
Lemma deliver_timer (c : Config) (T : Transport) (startTime : Z)
    (events : list (Z * RequestEvent)) :
  forall limiter request eff,
    subscribed startTime request ->
    let after := foldl (emit c T) (limiter, request, eff) events in
    (events ≠ [] -> _agentTimeout after.1.2 = None) /\
    timerClears after.2 =
      timerClears eff ++
      match _agentTimeout request, events with
      | Some _, _ :: _ => [()]
      | _, _ => []
      end.
Proof.
  induction events as [|[now event] events IH]; intros limiter request eff Hs.
  - simpl. split; [done|]. destruct (_agentTimeout request); by rewrite app_nil_r.
  - cbn [foldl]. rewrite (emit_step c T startTime) by done.
    match goal with
    | |- context [foldl _ (?l, ?r, ?e) events] =>
        destruct (IH l r e) as [Hnone Hclears]; [exact Hs|]
    end.
    cbv zeta in Hnone, Hclears. cbv zeta. split.
    + intros _. destruct events as [|ev events]; [done|]. by apply Hnone.
    + rewrite Hclears. cbn [_agentTimeout]. unfold timerClears.
      rewrite !omap_app.
      rewrite <- app_assoc.
      assert (Hz : forall x, omap (fun e => match e with ClearTimeout => Some () | _ => None end)
                   match x with
                   | Response statusCode => [Feedback (CNum statusCode)]
                   | Error code => [Feedback code]
                   | AbortEvent =>
                       match socket request with Some _ => [DestroySocket] | None => [] end
                   end = []).
      { intros [| |]; try done. by destruct (socket request). }
      rewrite Hz. destruct (_agentTimeout request), events; by rewrite ?app_nil_r.
Qed.

End AdapterSteps.

(** Membership of a call in an explicit list of calls. *)
Ltac is_effect := rewrite !elem_of_cons; auto.
Ltac no_effect :=
  rewrite !not_elem_of_cons; repeat split; (discriminate || apply not_elem_of_nil).

Lemma pendingRequest_caller : callerRequest pendingRequest.
Proof. intros event fs Hfs. vm_compute in Hfs. discriminate. Qed.

Lemma forwardedS2_forwarded :
  SuperAddRequest ∈
    (@addRequest specLimiter agentS2 transportS2 0 pendingRequest timedInfo).2.
Proof.
  change (SuperAddRequest ∈ [SetTimeout 500; SuperAddRequest]).
  rewrite !elem_of_cons. auto.
Qed.

(** X13. In pre-check mode [addRequest] runs no admission check: it always
    hands the request to the underlying transport, never aborts it and
    never emits an error on it, whatever the queue and the buffers are; the
    only calls are the arming of the timer, for a timeout that is not
    falsy, and the delegation, and the agent is changed only by the fetch
    of the limiter. *)
Theorem addRequest_precheck_forwards {L : LimiterClass} (a : Agent) (T : Transport)
    (now : Z) (request : ClientRequest) (info : Info) :
  let name := getName T info in
  let flag := getFlag (cfg a) (match uri info with Some u => href u | None => "" end) in
  let result := addRequest a T now request info in
  checkBeforeRequest (cfg a) = true ->
  result.1.1 = (_getLimiter a now name flag).1 /\
  (result.2 = [SuperAddRequest] \/
   exists ms, timeout info = Some ms /\ ms ≠ 0 /\
     result.2 = [SetTimeout ms; SuperAddRequest]) /\
  SuperAddRequest ∈ result.2 /\
  (Abort ∉ result.2) /\
  (forall message code, EmitError message code ∉ result.2).
Proof.
  intros name flag result Hmode. subst result. unfold addRequest.
  fold name. fold flag. rewrite Hmode. cbn [negb].
  destruct (_getLimiter a now name flag) as [a1 limiter]. cbn [fst].
  destruct (timeout info) as [ms|]; [destruct (Z.eqb_spec ms 0)|]; cbn [fst snd].
  - split; [done|]. split; [by left|]. split; [is_effect|].
    split; [no_effect|]. intros message code. no_effect.
  - split; [done|]. split; [right; by exists ms|]. split; [is_effect|].
    split; [no_effect|]. intros message code. no_effect.
  - split; [done|]. split; [by left|]. split; [is_effect|].
    split; [no_effect|]. intros message code. no_effect.
Qed.

Lemma addRequest_precheck_forwards_example :
  checkBeforeRequest (cfg agentPrecheck) = true /\
  (@addRequest specLimiter agentPrecheck transportS3 5 pendingRequest plainInfo).2 =
    [SuperAddRequest].
Proof.
  split; [reflexivity|].
  destruct (@addRequest_precheck_forwards specLimiter agentPrecheck transportS3 5
              pendingRequest plainInfo eq_refl) as (_ & [H|(ms & H & _)] & _).
  - exact H.
  - discriminate H.
Defined.

(** X14. A request that [addRequest] hands on carries the three closures
    of the agent after the subscribers it already had, one under each of
    [response], [error] and [abort], so the caller's subscribers run first;
    the other events, and the socket, are as before.  Its timer is armed,
    with [setTimeout], exactly for a timeout that is given and not 0. *)
Theorem addRequest_subscribes {L : LimiterClass} (a : Agent) (T : Transport)
    (now : Z) (request : ClientRequest) (info : Info) :
  let result := addRequest a T now request info in
  let forwarded := result.1.2 in
  SuperAddRequest ∈ result.2 ->
  _events forwarded !! "response" =
    Some (default [] (_events request !! "response") ++ [OnResponse now]) /\
  _events forwarded !! "error" =
    Some (default [] (_events request !! "error") ++ [OnError now]) /\
  _events forwarded !! "abort" =
    Some (default [] (_events request !! "abort") ++ [OnAbort]) /\
  (forall event, event ≠ "response" -> event ≠ "error" -> event ≠ "abort" ->
     _events forwarded !! event = _events request !! event) /\
  socket forwarded = socket request /\
  (forall ms, timeout info = Some ms -> ms ≠ 0 ->
     _agentTimeout forwarded = Some ms /\ SetTimeout ms ∈ result.2) /\
  (timeout info = None \/ timeout info = Some 0 ->
     _agentTimeout forwarded = _agentTimeout request /\
     result.2 = [SuperAddRequest]).
Proof.
  intros result forwarded Hf. subst forwarded result.
  destruct (addRequest_forwarded a T now request info Hf) as [-> ->].
  unfold on. cbn [_events _agentTimeout socket].
  split; [by simplify_map_eq|]. split; [by simplify_map_eq|].
  split; [by simplify_map_eq|]. split; [intros; by simplify_map_eq|].
  split; [done|]. split.
  - intros ms -> Hms. destruct (Z.eqb_spec ms 0); [done|]. cbn [negb default].
    split; [done|]. rewrite !elem_of_cons. auto.
  - by intros [->| ->].
Qed.

Lemma addRequest_subscribes_S2 :
  _events (@addRequest specLimiter agentS2 transportS2 0 watchedRequest timedInfo).1.2
    !! "error" = Some [UserListener 0 1; OnError 0] /\
  _agentTimeout (@addRequest specLimiter agentS2 transportS2 0 watchedRequest timedInfo).1.2
    = Some 500.
Proof.
  assert (Hf : SuperAddRequest ∈
    (@addRequest specLimiter agentS2 transportS2 0 watchedRequest timedInfo).2).
  { change (SuperAddRequest ∈ [SetTimeout 500; SuperAddRequest]).
    rewrite !elem_of_cons. auto. }
  destruct (@addRequest_subscribes specLimiter agentS2 transportS2 0 watchedRequest
              timedInfo Hf) as (_ & He & _ & _ & _ & Ht & _).
  split; [exact He|]. by destruct (Ht 500 eq_refl) as [Ht' _].
Defined.

(** X15. The timer of a request that was handed on is cancelled by the
    first of its events, whichever it is, and never again: after any event
    the request has no timer, and over any sequence of events
    [clearTimeout] is called once if the timer was armed and some event came,
    and not at all otherwise. *)
Theorem forwarded_timer_cleared_once {L : LimiterClass} (a : Agent) (T : Transport)
    (now : Z) (request : ClientRequest) (info : Info) :
  let result := addRequest a T now request info in
  let forwarded := result.1.2 in
  callerRequest request ->
  SuperAddRequest ∈ result.2 ->
  forall c T' limiter sock events,
    let after :=
      deliver c T' limiter
        (mkRequest (_events forwarded) (_agentTimeout forwarded) sock) events in
    (events ≠ [] -> _agentTimeout after.1.2 = None) /\
    (length (timerClears after.2) <= 1)%nat /\
    (length (timerClears after.2) = 1%nat <->
       _agentTimeout forwarded ≠ None /\ events ≠ []).
Proof.
  intros result forwarded Hc Hf c T' limiter sock events after.
  subst after forwarded result. unfold deliver.
  destruct (deliver_timer c T' now events limiter
              (mkRequest (_events (addRequest a T now request info).1.2)
                 (_agentTimeout (addRequest a T now request info).1.2) sock) [])
    as [Hnone Hclears]; [by apply forwarded_subscribed|].
  cbv zeta in Hnone, Hclears. split; [exact Hnone|]. rewrite Hclears.
  cbn [_agentTimeout timerClears omap app].
  destruct (_agentTimeout (addRequest a T now request info).1.2), events; simpl;
    (split; [lia|]); split; (done || lia || (intros [? ?]; done) || auto).
Qed.

Lemma forwarded_timer_cleared_once_S2 :
  length (timerClears
    (@deliver specLimiter (cfg agentS2) transportS2 capturedS2
       (mkRequest (_events forwardedS2.1.2) (_agentTimeout forwardedS2.1.2) None)
       [(500, AbortEvent); (501, Error (CStr "ECONNRESET"))]).2) = 1%nat.
Proof.
  destruct (@forwarded_timer_cleared_once specLimiter agentS2 transportS2 0
              pendingRequest timedInfo pendingRequest_caller forwardedS2_forwarded
              (cfg agentS2) transportS2 capturedS2 None
              [(500, AbortEvent); (501, Error (CStr "ECONNRESET"))]) as (_ & _ & H).
  apply H. split; vm_compute; discriminate.
Defined.

(** X16. What an event of a request that was handed on does to the limiter
    that its closures captured: a response or an error first folds the time
    since [addRequest] into the average ([addTime(now - startTime)]) and then
    reports the code to [_changeRate]; an abort leaves the limiter as it
    is. *)
Theorem forwarded_event_updates_limiter {L : LimiterClass} (a : Agent) (T : Transport)
    (now : Z) (request : ClientRequest) (info : Info) :
  let result := addRequest a T now request info in
  let forwarded := result.1.2 in
  callerRequest request ->
  SuperAddRequest ∈ result.2 ->
  forall c T' limiter sock t event,
    (deliver c T' limiter
       (mkRequest (_events forwarded) (_agentTimeout forwarded) sock)
       [(t, event)]).1.1 =
    match event with
    | Response statusCode =>
        _changeRate c T' t (addTime (t - now) limiter) (CNum statusCode)
    | Error code => _changeRate c T' t (addTime (t - now) limiter) code
    | AbortEvent => limiter
    end.
Proof.
  intros result forwarded Hc Hf c T' limiter sock t event.
  subst forwarded result. unfold deliver. cbn [foldl].
  by rewrite (emit_step c T' now) by by apply forwarded_subscribed.
Qed.

Lemma forwarded_event_updates_limiter_S2 :
  averageTime
    (@deliver specLimiter (cfg agentS2) transportS2 capturedS2
       (mkRequest (_events forwardedS2.1.2) (_agentTimeout forwardedS2.1.2) None)
       [(40, Response 200)]).1.1 = 20 /\
  success
    (@deliver specLimiter (cfg agentS2) transportS2 capturedS2
       (mkRequest (_events forwardedS2.1.2) (_agentTimeout forwardedS2.1.2) None)
       [(40, Response 200)]).1.1 = 1%N.
Proof.
  unfold forwardedS2.
  rewrite (@forwarded_event_updates_limiter specLimiter agentS2 transportS2 0
             pendingRequest timedInfo pendingRequest_caller forwardedS2_forwarded
             (cfg agentS2) transportS2 capturedS2 None 40 (Response 200)).
  split; reflexivity.
Defined.

(** X17. Only an abort destroys a socket, and only one that is attached: on
    an abort event of a request that was handed on, [socket.destroy()] is
    called once if the request has a socket by then and not at all if it has
    none; a response or an error never destroys the socket. *)
Theorem forwarded_abort_destroys_socket {L : LimiterClass} (a : Agent) (T : Transport)
    (now : Z) (request : ClientRequest) (info : Info) :
  let result := addRequest a T now request info in
  let forwarded := result.1.2 in
  callerRequest request ->
  SuperAddRequest ∈ result.2 ->
  forall c T' limiter sock t event,
    socketDestroys
      (deliver c T' limiter
         (mkRequest (_events forwarded) (_agentTimeout forwarded) sock)
         [(t, event)]).2 =
    match event, sock with
    | AbortEvent, Some _ => [()]
    | _, _ => []
    end.
Proof.
  intros result forwarded Hc Hf c T' limiter sock t event.
  subst forwarded result. unfold deliver. cbn [foldl].
  rewrite (emit_step c T' now) by by apply forwarded_subscribed.
  cbn [snd _agentTimeout socket app]. unfold socketDestroys. rewrite omap_app.
  destruct (_agentTimeout (addRequest a T now request info).1.2), event, sock; done.
Qed.

Lemma forwarded_abort_destroys_socket_S2 :
  socketDestroys
    (@deliver specLimiter (cfg agentS2) transportS2 capturedS2
       (mkRequest (_events forwardedS2.1.2) (_agentTimeout forwardedS2.1.2)
          (Some (mkSocket 0)))
       [(500, AbortEvent)]).2 = [()].
Proof.
  exact (@forwarded_abort_destroys_socket specLimiter agentS2 transportS2 0
           pendingRequest timedInfo pendingRequest_caller forwardedS2_forwarded
           (cfg agentS2) transportS2 capturedS2 (Some (mkSocket 0)) 500 AbortEvent).
Defined.

(** X18. A request that is rejected on submit never reaches the feedback
    engine: the rejection leaves [success] and [failed] of its limiter as
    the fetch found them ([withFailed] is [false] on this path), and since
    no closure was subscribed, no later event of the request makes a call or
    changes a limiter. *)
Theorem rejected_request_never_reports {L : LimiterClass} (a : Agent) (T : Transport)
    (now : Z) (request : ClientRequest) (info : Info) :
  let name := getName T info in
  let flag := getFlag (cfg a) (match uri info with Some u => href u | None => "" end) in
  let fetched := (_getLimiter a now name flag).2 in
  let result := addRequest a T now request info in
  checkBeforeRequest (cfg a) = false ->
  (_canAcceptRequest a T now name flag false).2 = false ->
  callerRequest request ->
  (forall c T' limiter events,
     deliver c T' limiter result.1.2 events = (limiter, request, [])) /\
  (queueFull (cfg a) T name || bufferPressure (cfg a) T name fetched = true ->
   exists stored, rateLimiters result.1.1 !! (name +:+ flag) = Some stored /\
     success stored = success fetched /\ failed stored = failed fetched /\
     limit stored = limit fetched).
Proof.
  intros name flag fetched result Hmode Hrej Hc. subst result.
  destruct (addRequest_cases a T now request info) as [Hcase _].
  fold name in Hcase. fold flag in Hcase. rewrite Hmode in Hcase. cbn [negb] in Hcase.
  rewrite (Hcase Hrej). cbn [fst snd]. split.
  - intros c T' limiter events. by apply deliver_caller.
  - intros Hgate. rewrite canAcceptRequest_rules. fold fetched. rewrite Hgate.
    cbn [fst]. exists (reject false fetched). split; [apply lookup_insert_eq|].
    destruct (reject_fields false fetched) as (_ & Hfail & _ & Hlim & Hsucc).
    rewrite Hfail, Hlim, Hsucc. repeat split. lia.
Qed.

Lemma rejected_request_never_reports_S3 :
  checkBeforeRequest (cfg agentS3) = false /\
  (@_canAcceptRequest specLimiter agentS3 transportS3 5 "h:80:" "" false).2 = false /\
  @deliver specLimiter (cfg agentS3) transportS3 capturedS2
    (@addRequest specLimiter agentS3 transportS3 5 pendingRequest plainInfo).1.2
    [(6, AbortEvent); (7, Error (CStr "ECONNRESET"))] = (capturedS2, pendingRequest, []).
Proof.
  do 2 (split; [reflexivity|]).
  destruct (@rejected_request_never_reports specLimiter agentS3 transportS3 5
              pendingRequest plainInfo eq_refl eq_refl pendingRequest_caller) as [H _].
  apply H.
Defined.

(** ** The cleanup sweep, once more *)

(** X19. The sweep is a filter: the registry after it holds exactly the
    limiters that had not expired, each as it was, so the sweep adds
    nothing and changes no limiter, and deleting keys while visiting them
    skips none. *)
Theorem cleanup_is_filter (a : Agent) (T : Transport) (now : Z) :
  rateLimiters (_cleanup a T now) =
    filter (fun entry => expired T now entry.2 = false) (rateLimiters a) /\
  rateLimiters (_cleanup a T now) ⊆ rateLimiters a /\
  cfg (_cleanup a T now) = cfg a /\
  lastCleanupTime (_cleanup a T now) = now.
Proof.
  assert (Heq : rateLimiters (_cleanup a T now) =
    filter (fun entry => expired T now entry.2 = false) (rateLimiters a)).
  { apply map_eq. intros key. rewrite cleanup_lookup, map_lookup_filter.
    destruct (rateLimiters a !! key) as [limiter|]; [|done]. simpl.
    destruct (expired T now limiter) eqn:He.
    - by rewrite option_guard_False.
    - by rewrite option_guard_True. }
  split; [done|]. split; [|done]. rewrite Heq. apply map_filter_subseteq.
Qed.

(** X20. Sweeping twice at one instant is sweeping once. *)
Theorem cleanup_twice (a : Agent) (T : Transport) (now : Z) :
  _cleanup (_cleanup a T now) T now = _cleanup a T now.
Proof.
  assert (Hm : rateLimiters (_cleanup (_cleanup a T now) T now) =
               rateLimiters (_cleanup a T now)).
  { apply map_eq. intros key. rewrite !cleanup_lookup.
    destruct (rateLimiters a !! key) as [limiter|]; [|done].
    destruct (expired T now limiter) eqn:He; [done|]. by rewrite He. }
  unfold _cleanup in *. unfold set_rateLimiters, set_lastCleanupTime in *.
  cbn [cfg rateLimiters lastCleanupTime] in *. by rewrite Hm.
Qed.

(** X21. [removeSocket] always delegates to the underlying transport, once,
    and sweeps at most once per [CLEANUP_TIME]: it leaves the agent as it is
    unless more than 60000 ms have passed since the last sweep, and after a
    sweep at [now] no [removeSocket] up to [now + 60000] sweeps again,
    whatever the transport holds by then. *)
Theorem removeSocket_sweeps_once_a_minute (a : Agent) (T : Transport) (now : Z) :
  (removeSocket a T now).2 = [SuperRemoveSocket] /\
  (now <= lastCleanupTime a + 60000 -> (removeSocket a T now).1 = a) /\
  (lastCleanupTime a + 60000 < now ->
     (removeSocket a T now).1 = _cleanup a T now /\
     forall T' later, later <= now + 60000 ->
       (removeSocket (removeSocket a T now).1 T' later).1 = _cleanup a T now).
Proof.
  unfold removeSocket. cbn [fst snd]. change CLEANUP_TIME with 60000.
  split; [done|]. split.
  - intros Hle. by destruct (Z.ltb_spec (lastCleanupTime a + 60000) now); [lia|].
  - intros Hlt. destruct (Z.ltb_spec (lastCleanupTime a + 60000) now); [|lia].
    split; [done|]. intros T' later Hlater.
    assert (Hlast : lastCleanupTime (_cleanup a T now) = now) by done.
    rewrite Hlast. by destruct (Z.ltb_spec (now + 60000) later); [lia|].
Qed.

Lemma removeSocket_sweeps_once_a_minute_S5 :
  lastCleanupTime agentS5 + 60000 < 61000 /\
  rateLimiters (removeSocket agentS5 transportIdle 61000).1 !! "h1:80:" = None /\
  (removeSocket (removeSocket agentS5 transportIdle 61000).1 transportHeld 100000).1 =
    _cleanup agentS5 transportIdle 61000.
Proof.
  split; [reflexivity|]. split; [reflexivity|].
  destruct (removeSocket_sweeps_once_a_minute agentS5 transportIdle 61000)
    as (_ & _ & H).
  destruct H as [_ H]; [reflexivity|]. apply H. vm_compute. discriminate.
Defined.

Lemma defaultRateDirection_cases_spare :
  defaultRateDirection (CStr "ECONNRESET") transportFree limiterS2 = 1.
Proof.
  destruct (defaultRateDirection_cases (CStr "ECONNRESET") transportFree limiterS2)
    as (_ & H & _).
  apply H. exact I.
Defined.

Lemma constructor_defaults_zero_rate :
  rate (cfg (constructor
    (mkOptions (Some 0) None None None None None None None None None None) 7)) = 1000000.
Proof.
  destruct (constructor_defaults
    (mkOptions (Some 0) None None None None None None None None None None) 7)
    as (_ & _ & _ & (H & _) & _).
  apply H. by right.
Defined.

(** ** Statistics *)

Section StatsFacts.

Variable getStat : RateLimiter -> LimiterStat.
Variable T : Transport.

Lemma stats_fold_kept (entries : list (string * RateLimiter)) :
  forall (acc : gmap string EndpointStat) (label : string),
    is_Some (acc !! label) ->
    is_Some (foldl (fun stats '(key, limiter) =>
                      <[statLabel limiter := statOf getStat T limiter]> stats)
               acc entries !! label).
Proof.
  induction entries as [|[key limiter] entries IH]; intros acc label Hs; [done|].
  cbn [foldl]. apply IH. destruct (decide (statLabel limiter = label)) as [->|Hne].
  - rewrite lookup_insert_eq. by eexists.
  - by rewrite lookup_insert_ne.
Qed.

Lemma stats_fold_complete (entries : list (string * RateLimiter)) :
  forall (acc : gmap string EndpointStat) key limiter,
    (key, limiter) ∈ entries ->
    is_Some (foldl (fun stats '(key, limiter) =>
                      <[statLabel limiter := statOf getStat T limiter]> stats)
               acc entries !! statLabel limiter).
Proof.
  induction entries as [|[key' limiter'] entries IH]; intros acc key limiter Hin.
  - by apply elem_of_nil in Hin.
  - cbn [foldl]. apply elem_of_cons in Hin as [[= <- <-]|Hin].
    + apply stats_fold_kept. rewrite lookup_insert_eq. by eexists.
    + by apply (IH _ key).
Qed.

Lemma stats_fold_sound (entries : list (string * RateLimiter)) :
  forall (acc : gmap string EndpointStat) label e,
    foldl (fun stats '(key, limiter) =>
             <[statLabel limiter := statOf getStat T limiter]> stats)
      acc entries !! label = Some e ->
    acc !! label = Some e \/
    exists key limiter, (key, limiter) ∈ entries /\ statLabel limiter = label /\
      e = statOf getStat T limiter.
Proof.
  induction entries as [|[key limiter] entries IH]; intros acc label e He; [by left|].
  cbn [foldl] in He. apply IH in He as [He|(key' & limiter' & Hin & Hl & ->)].
  - destruct (decide (statLabel limiter = label)) as [Heq|Hne].
    + rewrite <- Heq, lookup_insert_eq in He. injection He as <-.
      right. exists key, limiter. split; [apply list_elem_of_here|done].
    + rewrite lookup_insert_ne in He by done. by left.
  - right. exists key', limiter'. split; [by apply list_elem_of_further|done].
Qed.

Lemma statBufferSize_total (socks : list Socket) :
  statBufferSize (Some socks) = totalBufferSize socks.
Proof.
  unfold statBufferSize.
  assert (H : forall size,
    foldl (fun size s => if bufferSize s =? 0 then size else size + bufferSize s)
      size socks = size + totalBufferSize socks).
  { induction socks as [|s socks IH]; intros size; simpl.
    - unfold totalBufferSize. simpl. lia.
    - rewrite IH. unfold totalBufferSize. simpl.
      destruct (Z.eqb_spec (bufferSize s) 0); lia. }
  by rewrite H.
Qed.

End StatsFacts.

(** X22. [getStats] reports the registry by label ([flag], or [name] for
    an empty flag), in whatever order the keys are listed: every entry of
    the result is the figures of some limiter of the registry under that
    limiter's label, every limiter's label has an entry, a limiter that is
    alone with its label is reported with its own figures, and an agent
    without limiters reports nothing.  (Limiters that share a label share
    one entry.) *)
Theorem getStats_reports_registry (getStat : RateLimiter -> LimiterStat)
    (a : Agent) (T : Transport) (entries : list (string * RateLimiter)) :
  let stats := getStatsOver getStat T entries in
  entries ≡ₚ map_to_list (rateLimiters a) ->
  (forall label e, stats !! label = Some e ->
     exists key limiter, rateLimiters a !! key = Some limiter /\
       statLabel limiter = label /\ e = statOf getStat T limiter) /\
  (forall key limiter, rateLimiters a !! key = Some limiter ->
     is_Some (stats !! statLabel limiter)) /\
  (forall key limiter, rateLimiters a !! key = Some limiter ->
     (forall key' limiter', rateLimiters a !! key' = Some limiter' ->
        statLabel limiter' = statLabel limiter -> limiter' = limiter) ->
     stats !! statLabel limiter = Some (statOf getStat T limiter)) /\
  (rateLimiters a = ∅ -> stats = ∅).
Proof.
  intros stats Hperm. subst stats. unfold getStatsOver.
  assert (Hin : forall key limiter,
    (key, limiter) ∈ entries <-> rateLimiters a !! key = Some limiter).
  { intros key limiter. rewrite Hperm. apply elem_of_map_to_list. }
  assert (Hsound : forall label e,
    foldl (fun stats '(key, limiter) =>
             <[statLabel limiter := statOf getStat T limiter]> stats)
      (∅ : gmap string EndpointStat) entries !! label = Some e ->
    exists key limiter, rateLimiters a !! key = Some limiter /\
      statLabel limiter = label /\ e = statOf getStat T limiter).
  { intros label e He.
    apply stats_fold_sound in He as [He|(key & limiter & Hk & Hl & ->)]; [done|].
    exists key, limiter. by rewrite <- Hin. }
  split; [exact Hsound|]. split; [|split].
  - intros key limiter Hk. apply (stats_fold_complete _ _ _ _ key). by apply Hin.
  - intros key limiter Hk Huniq.
    destruct (stats_fold_complete getStat T entries ∅ key limiter) as [e He];
      [by apply Hin|].
    rewrite He. destruct (Hsound _ _ He) as (key' & limiter' & Hk' & Hl & ->).
    by rewrite (Huniq key' limiter' Hk' Hl).
  - intros Hempty. rewrite Hempty, map_to_list_empty in Hperm.
    apply Permutation_nil_r in Hperm. by rewrite Hperm.
Qed.

Lemma getStats_reports_registry_two :
  map_to_list (rateLimiters agentTwo) ≡ₚ map_to_list (rateLimiters agentTwo) /\
  is_Some (getStats specGetStat agentTwo transportS4 !! "h1:80:").
Proof.
  split; [reflexivity|].
  destruct (getStats_reports_registry specGetStat agentTwo transportS4
              (map_to_list (rateLimiters agentTwo))) as (_ & H & _); [reflexivity|].
  exact (H "h1:80:" limiterS5 eq_refl).
Defined.

(** X23. The transport figures of a statistics entry: [used], [free] and
    [pending] are the lengths of the endpoint's lists of sockets, free
    sockets and pending requests, 0 for a list that is not there, and
    [bufferSize] is the sum of the buffer sizes of the open sockets (the
    test that skips a falsy size changes nothing), 0 without a list. *)
Theorem statOf_transport_figures (getStat : RateLimiter -> LimiterStat)
    (T : Transport) (limiter : RateLimiter) :
  let entry := statOf getStat T limiter in
  s_name entry = name limiter /\
  s_rate entry = stat_limit (getStat limiter) /\
  (forall socks, sockets T !! name limiter = Some socks ->
     s_used entry = len socks /\ s_bufferSize entry = totalBufferSize socks) /\
  (sockets T !! name limiter = None -> s_used entry = 0 /\ s_bufferSize entry = 0) /\
  s_free entry = default 0 (len <$> freeSockets T !! name limiter) /\
  s_pending entry = default 0 (len <$> requests T !! name limiter).
Proof.
  intros entry. subst entry. unfold statOf. cbn [s_name s_rate s_used s_bufferSize
    s_free s_pending].
  split; [done|]. split; [done|]. split; [|split; [|split]].
  - intros socks ->. split; [done|]. apply statBufferSize_total.
  - by intros ->.
  - by destruct (freeSockets T !! name limiter).
  - by destruct (requests T !! name limiter).
Qed.

Lemma statOf_transport_figures_S4 :
  s_used (statOf specGetStat transportS4 (limiterS4 200)) = 2 /\
  s_bufferSize (statOf specGetStat transportS4 (limiterS4 200)) = 600.
Proof.
  destruct (statOf_transport_figures specGetStat transportS4 (limiterS4 200))
    as (_ & _ & H & _).
  exact (H (replicate 2 (mkSocket 300)) eq_refl).
Defined.
